(** * gemini-gui: the [App] orchestration core ([lib/app.js])

    A shallow embedding of [lib/app.js] and of the collaborators it calls,
    followed by the properties of the specification proved against it.

    - JavaScript strings are sequences of UTF-16 code units ([list Z]).
    - Promise chains are programs of a small free monad ([Prog]); every call
      to a collaborator (q-io/fs, child_process, compare-size, console, Date,
      temp, gemini) is a [Call] answered by a handler over a [World] and
      recorded in the world's trace.
    - [q.all] over two chains runs them interleaved, under a schedule taken
      from the world. *)

From Stdlib Require Import ZArith Lia DecimalString DecimalZ.
From stdpp Require Import gmap list strings.

Open Scope Z_scope.

(** ** JavaScript strings *)

Abbreviation jsstring := (list Z).

Definition code_unit (a : Ascii.ascii) : Z := Z.of_N (Ascii.N_of_ascii a).

(** An ASCII literal as a JavaScript string. *)
Definition u16 (s : string) : jsstring :=
  map code_unit (String.list_ascii_of_string s).

Definition SLASH : Z := 47.
Definition PERCENT : Z := 37.
Definition QUESTION : Z := 63.
Definition HASH : Z := 35.


(** ** JavaScript numbers, as far as [app.js] needs them

    Sizes, differences and timestamps are integers; the only quotient taken
    is rounded at once, so an integer-valued number is a [Z] and the three
    non-finite results of a division are kept apart. *)

Inductive jsnum :=
| NInt (z : Z)
| NaN
| PInf
| NInf.

(** [Number::toString] of an integer below 10^21: its decimal digits. *)
Definition Z_toString (z : Z) : jsstring :=
  u16 (NilZero.string_of_int (Z.to_int z)).

Definition jsnum_toString (n : jsnum) : jsstring :=
  match n with
  | NInt z => Z_toString z
  | NaN => u16 "NaN"
  | PInf => u16 "Infinity"
  | NInf => u16 "-Infinity"
  end.

(** [Math.round(n / d)] for integer-valued [n] and [d]: the quotient rounded
    to the nearest integer, halves towards +Infinity. *)
Definition Math_round_div (n d : Z) : jsnum :=
  if d =? 0 then
    (if n =? 0 then NaN else if 0 <? n then PInf else NInf)
  else NInt ((2 * n + d) / (2 * d)).

(** [a * 100 / b] then [Math.round], where either operand may be
    [undefined] (a missing property), which makes the result [NaN]. *)
Definition round_percent (a b : option Z) : jsnum :=
  match a, b with
  | Some n, Some d => Math_round_div (n * 100) d
  | _, _ => NaN
  end.

(** ** lodash *)

Definition includes (l : list jsstring) (x : jsstring) : bool :=
  bool_decide (x ∈ l).

(** [baseIntersection]: the values of the first array that every other
    array includes, each once, in the order of the first array. *)
Fixpoint baseIntersection (array others result : list jsstring)
  : list jsstring :=
  match array with
  | [] => result
  | v :: rest =>
      if negb (includes result v) && includes others v
      then baseIntersection rest others (result ++ [v])
      else baseIntersection rest others result
  end.

Definition lodash_intersection (a b : list jsstring) : list jsstring :=
  baseIntersection a b [].



(** [_.zipObject(keys, values)]: later keys overwrite earlier ones. *)
Fixpoint zipObject (keys values : list jsstring) (acc : gmap jsstring jsstring)
  : gmap jsstring jsstring :=
  match keys, values with
  | k :: ks, v :: vs => zipObject ks vs (<[k := v]> acc)
  | _, _ => acc
  end.

(** ** Errors: thrown values and promise rejections *)

Inductive Error :=
| JsError (message : jsstring)
| TypeError (message : jsstring)
| URIError (message : jsstring)
| FsError (code : jsstring) (path : jsstring)
| ExecError (message : jsstring).

(** ** [encodeURI] and percent-decoding (ECMAScript [Encode] / [Decode]) *)

Definition is_alpha (c : Z) : bool :=
  (65 <=? c) && (c <=? 90) || (97 <=? c) && (c <=? 122).

Definition is_digit (c : Z) : bool := (48 <=? c) && (c <=? 57).

Definition uriReserved : jsstring := u16 ";/?:@&=+$,".
Definition uriMark : jsstring := u16 "-_.!~*'()".

Definition mem_units (c : Z) (l : jsstring) : bool := existsb (Z.eqb c) l.

(** The code units [encodeURI] copies unchanged: uriReserved, uriUnescaped
    and [#]. *)
Definition encodeURI_unescaped (c : Z) : bool :=
  is_alpha c || is_digit c || mem_units c uriMark
  || mem_units c uriReserved || (c =? HASH).

Definition is_high_surrogate (c : Z) : bool := (0xD800 <=? c) && (c <=? 0xDBFF).
Definition is_low_surrogate (c : Z) : bool := (0xDC00 <=? c) && (c <=? 0xDFFF).

Definition surrogate_pair_cp (hi lo : Z) : Z :=
  (hi - 0xD800) * 0x400 + (lo - 0xDC00) + 0x10000.

Definition hex_digit (d : Z) : Z := if d <? 10 then 48 + d else 55 + d.

(** One octet as [%XX], upper-case hexadecimal. *)
Definition pct (b : Z) : jsstring :=
  [PERCENT; hex_digit (b / 16); hex_digit (b mod 16)].

(** The UTF-8 octets of a code point. *)
Definition utf8 (cp : Z) : list Z :=
  if cp <? 0x80 then [cp]
  else if cp <? 0x800 then [0xC0 + cp / 64; 0x80 + cp mod 64]
  else if cp <? 0x10000 then
    [0xE0 + cp / 4096; 0x80 + (cp / 64) mod 64; 0x80 + cp mod 64]
  else
    [0xF0 + cp / 262144; 0x80 + (cp / 4096) mod 64;
     0x80 + (cp / 64) mod 64; 0x80 + cp mod 64].

Definition pct_utf8 (cp : Z) : jsstring := concat (map pct (utf8 cp)).

Definition malformed : Error := URIError (u16 "URI malformed").

Definition cons_out (pre : jsstring) (r : Error + jsstring) : Error + jsstring :=
  match r with
  | inl e => inl e
  | inr out => inr (pre ++ out)
  end.

(** [Encode(string, unescapedSet)]: a code unit of the set is copied, any
    other code point is written as the escapes of its UTF-8 octets, and an
    unpaired surrogate throws a URIError. *)
Fixpoint Encode (unescaped : Z -> bool) (s : jsstring) : Error + jsstring :=
  match s with
  | [] => inr []
  | c :: rest =>
      if unescaped c then cons_out [c] (Encode unescaped rest)
      else if is_low_surrogate c then inl malformed
      else if is_high_surrogate c then
        match rest with
        | c2 :: rest' =>
            if is_low_surrogate c2
            then cons_out (pct_utf8 (surrogate_pair_cp c c2))
                          (Encode unescaped rest')
            else inl malformed
        | [] => inl malformed
        end
      else cons_out (pct_utf8 c) (Encode unescaped rest)
  end.

Definition encodeURI (s : jsstring) : Error + jsstring :=
  Encode encodeURI_unescaped s.

Definition hex_value (c : Z) : option Z :=
  if is_digit c then Some (c - 48)
  else if (65 <=? c) && (c <=? 70) then Some (c - 55)
  else if (97 <=? c) && (c <=? 102) then Some (c - 87)
  else None.

(** An escape [%XX] at the head of the string: its octet and what follows. *)
Definition parse_escape (s : jsstring) : option (Z * jsstring) :=
  match s with
  | p :: h :: l :: rest =>
      if p =? PERCENT then
        match hex_value h, hex_value l with
        | Some a, Some b => Some (a * 16 + b, rest)
        | _, _ => None
        end
      else None
  | _ => None
  end.

Definition is_continuation (b : Z) : bool := (0x80 <=? b) && (b <=? 0xBF).

Fixpoint parse_continuations (n : nat) (s : jsstring)
  : option (list Z * jsstring) :=
  match n with
  | O => Some ([], s)
  | S m =>
      match parse_escape s with
      | Some (b, rest) =>
          if is_continuation b then
            match parse_continuations m rest with
            | Some (bs, r) => Some (b :: bs, r)
            | None => None
            end
          else None
      | None => None
      end
  end.

(** The number of continuation octets a leading octet announces. *)
Definition continuation_count (b : Z) : option nat :=
  if b <? 0xC0 then None
  else if b <? 0xE0 then Some 1%nat
  else if b <? 0xF0 then Some 2%nat
  else if b <? 0xF8 then Some 3%nat
  else None.

(** The code point of a well-formed UTF-8 sequence: shortest form only, no
    surrogate, at most U+10FFFF. *)
Definition utf8_code_point (b0 : Z) (conts : list Z) : option Z :=
  match conts with
  | [b1] =>
      let cp := (b0 - 0xC0) * 64 + (b1 - 0x80) in
      if 0x80 <=? cp then Some cp else None
  | [b1; b2] =>
      let cp := (b0 - 0xE0) * 4096 + (b1 - 0x80) * 64 + (b2 - 0x80) in
      if (0x800 <=? cp) && negb ((0xD800 <=? cp) && (cp <=? 0xDFFF))
      then Some cp else None
  | [b1; b2; b3] =>
      let cp := (b0 - 0xF0) * 262144 + (b1 - 0x80) * 4096
                + (b2 - 0x80) * 64 + (b3 - 0x80) in
      if (0x10000 <=? cp) && (cp <=? 0x10FFFF) then Some cp else None
  | _ => None
  end.

Definition UTF16EncodeCodePoint (cp : Z) : jsstring :=
  if cp <=? 0xFFFF then [cp]
  else [(cp - 0x10000) / 0x400 + 0xD800; (cp - 0x10000) mod 0x400 + 0xDC00].

(** One round of [Decode] on a non-empty string: the code units it
    appends and the rest of the string. *)
Definition decode_step (c : Z) (rest : jsstring) : option (jsstring * jsstring) :=
  if c =? PERCENT then
    match parse_escape (c :: rest) with
    | Some (b, r) =>
        if b <? 0x80 then Some ([b], r)
        else
          match continuation_count b with
          | Some n =>
              match parse_continuations n r with
              | Some (bs, r') =>
                  match utf8_code_point b bs with
                  | Some cp => Some (UTF16EncodeCodePoint cp, r')
                  | None => None
                  end
              | None => None
              end
          | None => None
          end
    | None => None
    end
  else Some ([c], rest).

Fixpoint Decode (fuel : nat) (s : jsstring) : Error + jsstring :=
  match s with
  | [] => inr []
  | c :: rest =>
      match fuel with
      | O => inl malformed
      | S f =>
          match decode_step c rest with
          | Some (units, r) => cons_out units (Decode f r)
          | None => inl malformed
          end
      end
  end.

(** [decodeURIComponent]: every escape is decoded. Each round consumes at
    least one code unit, so the length of the string is fuel enough. *)
Definition decodeURIComponent (s : jsstring) : Error + jsstring :=
  Decode (length s) s.

(** [decode_step] on a string that is not empty. *)
Definition decode_units (s : jsstring) : option (jsstring * jsstring) :=
  match s with
  | [] => None
  | c :: rest => decode_step c rest
  end.

(** A continuation octet of UTF-8. *)
Definition is_octet_continuation (b : Z) : Prop := 0x80 <= b <= 0xBF.

(** A Unicode scalar value: a code point that is not a surrogate. *)
Definition is_scalar (cp : Z) : Prop :=
  0 <= cp <= 0x10FFFF /\ ~ (0xD800 <= cp <= 0xDFFF).

(** A code unit is a 16-bit number. *)
Definition is_code_unit (c : Z) : Prop := 0 <= c < 65536.

(** [IsStringWellFormedUnicode]: every surrogate is half of a pair. *)
Fixpoint well_formed (s : jsstring) : bool :=
  match s with
  | [] => true
  | c :: rest =>
      if is_low_surrogate c then false
      else if is_high_surrogate c then
        match rest with
        | c2 :: rest' => is_low_surrogate c2 && well_formed rest'
        | [] => false
        end
      else well_formed rest
  end.

(** The path portion of a URL reference: what precedes the first [?] or
    [#]. *)
Fixpoint url_path (u : jsstring) : jsstring :=
  match u with
  | [] => []
  | c :: rest =>
      if (c =? QUESTION) || (c =? HASH) then [] else c :: url_path rest
  end.

(** ** Node's [path.dirname] (POSIX) *)

(** The loop of [dirname]: from index [i] down to 1, the index of the
    first [/] met after a code unit that is not one. *)
Fixpoint dirname_scan (path : jsstring) (i : nat) (matchedSlash : bool)
  : option nat :=
  match i with
  | O => None
  | S j =>
      match path !! i with
      | Some c =>
          if c =? SLASH then
            (if matchedSlash then dirname_scan path j true else Some i)
          else dirname_scan path j false
      | None => None
      end
  end.

Definition path_dirname (path : jsstring) : jsstring :=
  match path with
  | [] => u16 "."
  | c0 :: _ =>
      let hasRoot := c0 =? SLASH in
      match dirname_scan path (length path - 1) true with
      | None => if hasRoot then u16 "/" else u16 "."
      | Some e =>
          if hasRoot && (e =? 1)%nat then u16 "//" else take e path
      end
  end.

(** ** The file system, as q-io/fs sees it

    A tree of normalized paths: every entry is a directory or a file with
    its size. *)

Inductive Node :=
| Dir
| File (size : Z).

#[global] Instance Node_eq_dec : EqDecision Node.
Proof. solve_decision. Defined.

(** [k] is [p] or lies below [p]. *)
Definition under (p k : jsstring) : Prop :=
  k = p \/ (p ++ [SLASH]) `prefix_of` k.

#[global] Instance under_dec p k : Decision (under p k).
Proof. unfold under. apply _. Defined.

Definition is_dir (fs : gmap jsstring Node) (p : jsstring) : Prop :=
  fs !! p = Some Dir.

#[global] Instance is_dir_dec fs p : Decision (is_dir fs p).
Proof. unfold is_dir. apply _. Defined.

(** Nothing lies below [p]. *)
Definition nothing_below (fs : gmap jsstring Node) (p : jsstring) : Prop :=
  map_Forall (fun k _ => ~ (p ++ [SLASH]) `prefix_of` k) fs.

Definition is_empty_dir (fs : gmap jsstring Node) (p : jsstring) : Prop :=
  is_dir fs p /\ nothing_below fs p.

Definition is_fs_root (p : jsstring) : bool :=
  bool_decide (p = u16 ".") || bool_decide (p = u16 "/")
  || bool_decide (p = u16 "//").

(** The parent of [p] is the working directory, a root or a directory of
    the tree. *)
Definition parent_ok (fs : gmap jsstring Node) (p : jsstring) : bool :=
  let d := path_dirname p in
  is_fs_root d || bool_decide (fs !! d = Some Dir).

(** The leading parts of [k] that end before a separator, [pre] being
    the part of the path already walked. *)
Fixpoint slash_prefixes (pre k : jsstring) : list jsstring :=
  match k with
  | [] => []
  | c :: rest =>
      (if (c =? SLASH) && negb (bool_decide (pre = [])) then [pre] else [])
      ++ slash_prefixes (pre ++ [c]) rest
  end.

(** A well-formed tree: whatever lies above an entry is a directory. *)
Definition fs_wf (fs : gmap jsstring Node) : Prop :=
  map_Forall (fun k _ => Forall (is_dir fs) (slash_prefixes [] k)) fs.

#[global] Instance fs_wf_dec fs : Decision (fs_wf fs).
Proof. unfold fs_wf. apply _. Defined.

Definition fs_exists (fs : gmap jsstring Node) (p : jsstring) : bool :=
  bool_decide (is_Some (fs !! p)).

Definition fs_isFile (fs : gmap jsstring Node) (p : jsstring) : bool :=
  match fs !! p with
  | Some (File _) => true
  | _ => false
  end.

Definition fs_remove (fs : gmap jsstring Node) (p : jsstring)
  : Error + gmap jsstring Node :=
  match fs !! p with
  | Some (File _) => inr (delete p fs)
  | Some Dir => inl (FsError (u16 "EISDIR") p)
  | None => inl (FsError (u16 "ENOENT") p)
  end.

Definition fs_removeTree (fs : gmap jsstring Node) (p : jsstring)
  : Error + gmap jsstring Node :=
  match fs !! p with
  | Some _ => inr (filter (fun kv => ~ under p kv.1) fs)
  | None => inl (FsError (u16 "ENOENT") p)
  end.

Definition fs_makeDirectory (fs : gmap jsstring Node) (p : jsstring)
  : Error + gmap jsstring Node :=
  match fs !! p with
  | Some _ => inl (FsError (u16 "EEXIST") p)
  | None =>
      if parent_ok fs p then inr (<[p := Dir]> fs)
      else inl (FsError (u16 "ENOENT") p)
  end.

(** The leading parts of [p], shortest first, that [makeTree] walks. *)
Fixpoint path_prefixes (fuel : nat) (p : jsstring) (acc : list jsstring)
  : list jsstring :=
  match fuel with
  | O => acc
  | S n =>
      if is_fs_root p || bool_decide (p = []) then acc
      else path_prefixes n (path_dirname p) (p :: acc)
  end.

(** [makeTree]: [makeDirectory] on each leading part in turn, an EEXIST of
    a part being thrown away. *)
Fixpoint fs_makeParts (fs : gmap jsstring Node) (parts : list jsstring)
  : Error + gmap jsstring Node :=
  match parts with
  | [] => inr fs
  | a :: rest =>
      match fs !! a with
      | Some _ => fs_makeParts fs rest
      | None =>
          match fs_makeDirectory fs a with
          | inl e => inl e
          | inr fs' => fs_makeParts fs' rest
          end
      end
  end.

Definition fs_makeTree (fs : gmap jsstring Node) (p : jsstring)
  : Error + gmap jsstring Node :=
  fs_makeParts fs (path_prefixes (length p) p []).

(** ** Data of the application *)

Record Suite := mkSuite {
  suite_name : jsstring;
  browsers : list jsstring
}.

(** A test result, or the description of one sent back by the viewer.
    [obj] is the identity of the JavaScript object. *)
Record Test := mkTest {
  obj : nat;
  suite_path : jsstring;
  state_name : jsstring;
  browserId : jsstring;
  referencePath : jsstring;
  currentPath : jsstring
}.

Record Options := mkOptions {
  configFile : option jsstring;
  testFiles : list jsstring;
  grep : option jsstring;
  browser : option (list jsstring)
}.

(** Modelled from the spec: [lib/common/tests-index.js] is missing. The
    failed-test index maps the key (suite path, state name, browser id) to
    the latest test result added for it; [add] inserts or overwrites, [find]
    looks the same key up and answers the stored result or nothing. *)
Record Index := mkIndex {
  entries : gmap (jsstring * jsstring * jsstring) Test
}.

Definition Index_key (t : Test) : jsstring * jsstring * jsstring :=
  (suite_path t, state_name t, browserId t).

Definition Index_new : Index := mkIndex ∅.

Definition Index_add (idx : Index) (t : Test) : Index :=
  mkIndex (<[Index_key t := t]> (entries idx)).

Definition Index_find (idx : Index) (d : Test) : option Test :=
  entries idx !! Index_key d.

(** ** Calls to collaborators *)

Inductive Call :=
| FsExists (p : jsstring)
| FsRemoveTree (p : jsstring)
| FsMakeDirectory (p : jsstring)
| FsMakeTree (p : jsstring)
| FsIsFile (p : jsstring)
| FsRemove (p : jsstring)
| ExecFile (file : jsstring) (args : list jsstring)
| CompareSize (a b : jsstring)
| ConsoleLog (line : jsstring)
| ConsoleWarn (line : jsstring)
| DateNow
| TempPath (affix : jsstring)
| GeminiReadTests (files : list jsstring) (pattern : option jsstring).

#[global] Instance Call_eq_dec : EqDecision Call.
Proof. solve_decision. Defined.

(** What a call answers when it does not fail. *)
Definition ans (c : Call) : Type :=
  match c with
  | FsExists _ | FsIsFile _ => bool
  | CompareSize _ _ => gmap jsstring Z
  | DateNow => Z
  | TempPath _ => jsstring
  | GeminiReadTests _ _ => list Suite
  | _ => unit
  end.

(** ** The world outside the application *)

Record World := mkWorld {
  files : gmap jsstring Node;
  clock : Z;
  stdout : list jsstring;
  stderr : list jsstring;
  trace : list Call;
  schedule : list bool;
  temp_seed : nat
}.

(** What the application is linked and configured with: Node's
    [path.relative] (which resolves against the working directory), the
    optipng binary and what running it does to the file system, the size
    inspector, temp's name generator, whether chalk colours its output, and
    the gemini instance built from the configuration file. *)
Record Env := mkEnv {
  path_relative : jsstring -> jsstring -> jsstring;
  optipng : jsstring;
  execFile_run :
    jsstring -> list jsstring -> gmap jsstring Node -> Error + gmap jsstring Node;
  compareSize_run :
    jsstring -> jsstring -> gmap jsstring Node -> Error + gmap jsstring Z;
  temp_name : nat -> jsstring -> jsstring;
  colors : bool;
  gemini_browserIds : list jsstring;
  gemini_screenshotsDir : jsstring -> jsstring;
  gemini_readTests : list jsstring -> option jsstring -> Error + list Suite;
  gemini_getScreenshotPath : jsstring -> jsstring -> jsstring -> jsstring
}.

Definition set_files (fs : gmap jsstring Node) (w : World) : World :=
  mkWorld fs (clock w) (stdout w) (stderr w) (trace w) (schedule w) (temp_seed w).

Definition set_schedule (s : list bool) (w : World) : World :=
  mkWorld (files w) (clock w) (stdout w) (stderr w) (trace w) s (temp_seed w).

Definition record_call (c : Call) (w : World) : World :=
  mkWorld (files w) (clock w) (stdout w) (stderr w) (trace w ++ [c])
          (schedule w) (temp_seed w).

Definition print_out (line : jsstring) (w : World) : World :=
  mkWorld (files w) (clock w) (stdout w ++ [line]) (stderr w) (trace w)
          (schedule w) (temp_seed w).

Definition print_err (line : jsstring) (w : World) : World :=
  mkWorld (files w) (clock w) (stdout w) (stderr w ++ [line]) (trace w)
          (schedule w) (temp_seed w).

Definition next_seed (w : World) : World :=
  mkWorld (files w) (clock w) (stdout w) (stderr w) (trace w)
          (schedule w) (S (temp_seed w)).

Definition fs_result (r : Error + gmap jsstring Node) (w : World)
  : (Error + unit) * World :=
  match r with
  | inl e => (inl e, w)
  | inr fs' => (inr tt, set_files fs' w)
  end.

(** The answer of a call in a world, and the world after it. Every call is
    recorded in the trace first. *)
Definition handle (E : Env) (c : Call) (w0 : World) : (Error + ans c) * World :=
  let w := record_call c w0 in
  match c return (Error + ans c) * World with
  | FsExists p => (inr (fs_exists (files w) p), w)
  | FsIsFile p => (inr (fs_isFile (files w) p), w)
  | FsRemoveTree p => fs_result (fs_removeTree (files w) p) w
  | FsMakeDirectory p => fs_result (fs_makeDirectory (files w) p) w
  | FsMakeTree p => fs_result (fs_makeTree (files w) p) w
  | FsRemove p => fs_result (fs_remove (files w) p) w
  | ExecFile file args => fs_result (execFile_run E file args (files w)) w
  | CompareSize a b =>
      match compareSize_run E a b (files w) with
      | inl e => (inl e, w)
      | inr res => (inr res, w)
      end
  | ConsoleLog line => (inr tt, print_out line w)
  | ConsoleWarn line => (inr tt, print_err line w)
  | DateNow => (inr (clock w), w)
  | TempPath affix => (inr (temp_name E (temp_seed w) affix), next_seed w)
  | GeminiReadTests fl pattern =>
      match gemini_readTests E fl pattern with
      | inl e => (inl e, w)
      | inr suites => (inr suites, w)
      end
  end.

(** ** Promise chains *)

Inductive Prog (A : Type) : Type :=
| Ret (a : A)
| Throw (e : Error)
| Do (c : Call) (k : ans c -> Prog A).

Arguments Ret {A} a.
Arguments Throw {A} e.
Arguments Do {A} c k.

(** [p.then(f)] *)
Fixpoint then_ {A B : Type} (p : Prog A) (f : A -> Prog B) : Prog B :=
  match p with
  | Ret a => f a
  | Throw e => Throw e
  | Do c k => Do c (fun x => then_ (k x) f)
  end.

Definition call (c : Call) : Prog (ans c) := Do c Ret.

Definition lift {A : Type} (r : Error + A) : Prog A :=
  match r with
  | inl e => Throw e
  | inr a => Ret a
  end.

Notation "x <- p ;; q" := (then_ p (fun x => q))
  (at level 100, p at next level, right associativity).
Notation "p ;;; q" := (then_ p (fun _ => q))
  (at level 100, right associativity).

Fixpoint run (E : Env) {A : Type} (p : Prog A) (w : World)
  : (Error + A) * World :=
  match p with
  | Ret a => (inr a, w)
  | Throw e => (inl e, w)
  | Do c k =>
      match handle E c w with
      | (inl e, w') => (inl e, w')
      | (inr x, w') => run E (k x) w'
      end
  end.

(** The other chain of a [q.all] runs on after one has settled; the
    result is the pair of both values, or the rejection that came first. *)
Definition settle_left {A B : Type} (a : Error + A) (r : (Error + B) * World)
  : (Error + (A * B)) * World :=
  match a, r with
  | inl e, (_, w) => (inl e, w)
  | inr _, (inl e, w) => (inl e, w)
  | inr x, (inr y, w) => (inr (x, y), w)
  end.

Definition settle_right {A B : Type} (b : Error + B) (r : (Error + A) * World)
  : (Error + (A * B)) * World :=
  match b, r with
  | inl e, (_, w) => (inl e, w)
  | inr _, (inl e, w) => (inl e, w)
  | inr y, (inr x, w) => (inr (x, y), w)
  end.

(** [q.all([p1, p2])]: the calls of the two chains interleave; each entry of
    the schedule says which chain moves next ([true]: the first). When the
    schedule is used up the first chain runs to its end, then the second. *)
Fixpoint all2 (E : Env) {A B : Type} (sched : list bool)
    (p1 : Prog A) (p2 : Prog B) (w : World) : (Error + (A * B)) * World :=
  match sched with
  | [] =>
      let '(a, w1) := run E p1 (set_schedule [] w) in
      settle_left a (run E p2 w1)
  | true :: s =>
      match p1 with
      | Ret a => settle_left (inr a) (run E p2 (set_schedule s w))
      | Throw e => settle_left (inl e) (run E p2 (set_schedule s w))
      | Do c k =>
          match handle E c w with
          | (inl e, w') => settle_left (inl e) (run E p2 (set_schedule s w'))
          | (inr x, w') => all2 E s (k x) p2 w'
          end
      end
  | false :: s =>
      match p2 with
      | Ret b => settle_right (inr b) (run E p1 (set_schedule s w))
      | Throw e => settle_right (inl e) (run E p1 (set_schedule s w))
      | Do c k =>
          match handle E c w with
          | (inl e, w') => settle_right (inl e) (run E p1 (set_schedule s w'))
          | (inr x, w') => all2 E s p1 (k x) w'
          end
      end
  end.

Definition q_all2 (E : Env) {A B : Type} (p1 : Prog A) (p2 : Prog B)
    (w : World) : (Error + (A * B)) * World :=
  all2 E (schedule w) p1 p2 w.

(** ** [lib/app.js] *)

Record App := mkApp {
  _options : Options;
  diffDir : jsstring;
  currentDir : jsstring;
  _failedTests : Index;
  system_tempDir : jsstring;
  referenceDirs : gmap jsstring jsstring;
  _collection : option (list Suite);
  _tests : option (list Suite)
}.

Definition set_collection (suites : list Suite) (app : App) : App :=
  mkApp (_options app) (diffDir app) (currentDir app) (_failedTests app)
        (system_tempDir app) (referenceDirs app) (Some suites) (_tests app).

(** Modelled from the spec: [lib/tests-model.js] is missing; [getTests]
    answers the currently loaded, browser-filtered test tree, so the model
    built from a collection is its list of suites. *)
Definition set_tests (suites : list Suite) (app : App) : App :=
  mkApp (_options app) (diffDir app) (currentDir app) (_failedTests app)
        (system_tempDir app) (referenceDirs app) (_collection app) (Some suites).

Definition set_failedTests (idx : Index) (app : App) : App :=
  mkApp (_options app) (diffDir app) (currentDir app) idx
        (system_tempDir app) (referenceDirs app) (_collection app) (_tests app).

Definition set_browsers (bs : list jsstring) (s : Suite) : Suite :=
  mkSuite (suite_name s) bs.

Definition set_referencePath (p : jsstring) (t : Test) : Test :=
  mkTest (obj t) (suite_path t) (state_name t) (browserId t) p (currentPath t).

Definition removeTreeIfExists (p : jsstring) : Prog unit :=
  exists_ <- call (FsExists p) ;;
  if exists_ : bool then call (FsRemoveTree p) else Ret tt.

Definition filterBrowsers (browsersFromConfig browsersFromCli : list jsstring)
  : list jsstring :=
  lodash_intersection browsersFromConfig browsersFromCli.





(** [this._tests] is [undefined] before [initialize]. *)
Definition getTests (app : App) : Prog (list Suite) :=
  match _tests app with
  | None => Throw (TypeError (u16 "Cannot read property 'data' of undefined"))
  | Some data => Ret data
  end.

Definition _readTests (E : Env) (app : App) : Prog App :=
  collection <- call (GeminiReadTests (testFiles (_options app)) (grep (_options app))) ;;
  suites <- Ret (match browser (_options app) with
                 | None => collection
                 | Some cli =>
                     map (fun suite =>
                            set_browsers (filterBrowsers (browsers suite) cli) suite)
                         collection
                 end) ;;
  Ret (set_tests suites (set_collection suites app)).

(** [_recreateTmpDirs]: both removals, then both creations, each pair under
    [q.all]. *)
Definition _recreateTmpDirs (E : Env) (app : App) (w : World)
  : (Error + unit) * World :=
  match q_all2 E (removeTreeIfExists (currentDir app))
                 (removeTreeIfExists (diffDir app)) w with
  | (inl e, w1) => (inl e, w1)
  | (inr _, w1) =>
      match q_all2 E (call (FsMakeDirectory (currentDir app)))
                     (call (FsMakeDirectory (diffDir app))) w1 with
      | (inl e, w2) => (inl e, w2)
      | (inr _, w2) => (inr tt, w2)
      end
  end.

Definition initialize (E : Env) (app : App) (w : World) : (Error + App) * World :=
  match _recreateTmpDirs E app w with
  | (inl e, w1) => (inl e, w1)
  | (inr _, w1) => run E (_readTests E app) w1
  end.

Definition addFailedTest (app : App) (test : Test) : App :=
  set_failedTests (Index_add (_failedTests app) test) app.

Definition getScreenshotPath (E : Env) (suite stateName browserId_ : jsstring)
  : jsstring :=
  gemini_getScreenshotPath E suite stateName browserId_.

Definition addNoReferenceTest (E : Env) (app : App) (test : Test) : App :=
  let test' :=
    set_referencePath
      (getScreenshotPath E (suite_path test) (state_name test) (browserId test))
      test in
  addFailedTest app test'.

Definition refPrefix : jsstring := u16 "/ref".
Definition currentPrefix : jsstring := u16 "/curr".
Definition diffPrefix : jsstring := u16 "/diff".

Definition _pathToURL (E : Env) (rootDir fullPath prefix : jsstring)
  : Error + jsstring :=
  let relPath := path_relative E rootDir fullPath in
  cons_out (prefix ++ u16 "/") (encodeURI relPath).

Definition diffPathToURL (E : Env) (app : App) (fullPath : jsstring)
  : Error + jsstring :=
  _pathToURL E (diffDir app) fullPath diffPrefix.

Definition _appendTimestampToURL (URL : jsstring) : Prog jsstring :=
  t <- call DateNow ;;
  Ret (URL ++ u16 "?t=" ++ Z_toString t).

(** [this.referenceDirs[browserId]] is [undefined] for an unknown browser
    id, and [path.relative] throws a TypeError on it. *)
Definition refPathToURL (E : Env) (app : App) (fullPath browserId_ : jsstring)
  : Prog jsstring :=
  match referenceDirs app !! browserId_ with
  | None => Throw (TypeError (u16 "Path must be a string"))
  | Some rootDir =>
      URL <- lift (_pathToURL E rootDir fullPath
                     (refPrefix ++ u16 "/" ++ browserId_)) ;;
      _appendTimestampToURL URL
  end.

Definition currentPathToURL (E : Env) (app : App) (fullPath : jsstring)
  : Prog jsstring :=
  URL <- lift (_pathToURL E (currentDir app) fullPath currentPrefix) ;;
  _appendTimestampToURL URL.

Definition _deleteRefImg (refPathImg : jsstring) : Prog unit :=
  refExists <- call (FsIsFile refPathImg) ;;
  if refExists : bool then call (FsRemove refPathImg) else Ret tt.

Definition _compressAndCopyRefImg (E : Env) (refPathImg currPathImg : jsstring)
  : Prog unit :=
  call (ExecFile (optipng E) [u16 "-out"; refPathImg; currPathImg]).

Definition _calcCompression (refPathImg currPathImg : jsstring) : Prog jsnum :=
  res <- call (CompareSize refPathImg currPathImg) ;;
  Ret (round_percent (res !! u16 "difference") (res !! currPathImg)).

Definition updated_message (refPath : jsstring) (compressionRate : jsnum)
  : jsstring :=
  u16 "Reference image " ++ refPath ++ u16 " has been updated "
  ++ u16 "(compressed on: " ++ jsnum_toString compressionRate ++ u16 "%).".

Definition updateReferenceImage (E : Env) (app : App) (testData : Test)
  : Prog jsstring :=
  match Index_find (_failedTests app) testData with
  | None => Throw (JsError (u16 "No such test failed"))
  | Some test =>
      call (FsMakeTree (path_dirname (referencePath test))) ;;;
      _deleteRefImg (referencePath test) ;;;
      _compressAndCopyRefImg E (referencePath test) (currentPath test) ;;;
      compressionRate <- _calcCompression (referencePath test) (currentPath test) ;;
      call (ConsoleLog (updated_message (referencePath test) compressionRate)) ;;;
      refPathToURL E app (referencePath test) (browserId test)
  end.

(** ** The size inspector's result as [test/app.js] builds it *)

Record CompressionParams := mkParams {
  p_currentPath : option jsstring;
  p_referencePath : option jsstring;
  p_currentSize : option Z;
  p_referenceSize : option Z
}.

Definition mkCompressionRes (params : CompressionParams) : gmap jsstring Z :=
  let currentPath_ := default (u16 "default_current_path") (p_currentPath params) in
  let referencePath_ := default (u16 "default_reference_path") (p_referencePath params) in
  let currentSize := default 1000 (p_currentSize params) in
  let referenceSize := default 750 (p_referenceSize params) in
  let difference := currentSize - referenceSize in
  <[u16 "difference" := difference]>
    (<[referencePath_ := referenceSize]>
       (<[currentPath_ := currentSize]> ∅)).

(** ** A concrete environment and world, for running the model

    The environment follows the stubs of [test/app.js]: [execFile] does the
    work of optipng on the modelled tree (it refuses an existing output file
    and writes three quarters of the input size), and the size inspector
    answers through [mkCompressionRes]. *)

(** [path.relative(from, to)] for a normalized [to] below a normalized
    [from]: what follows [from] and the separator. *)
Definition relative_below (from to : jsstring) : jsstring :=
  if bool_decide ((from ++ [SLASH]) `prefix_of` to)
  then drop (length from + 1) to
  else to.

Definition file_size (fs : gmap jsstring Node) (p : jsstring) : option Z :=
  match fs !! p with
  | Some (File n) => Some n
  | _ => None
  end.

Definition fixture_execFile (file : jsstring) (args : list jsstring)
    (fs : gmap jsstring Node) : Error + gmap jsstring Node :=
  match args with
  | [flag; out; input] =>
      match file_size fs input, fs !! out with
      | Some n, None => inr (<[out := File (n * 3 / 4)]> fs)
      | _, _ => inl (ExecError (u16 "Command failed"))
      end
  | _ => inl (ExecError (u16 "Command failed"))
  end.

(** The size inspector on the modelled tree: the sizes of the reference
    ([a]) and of the current capture ([b]), in the shape [mkCompressionRes]
    gives its answer. *)
Definition size_inspector (a b : jsstring) (fs : gmap jsstring Node)
  : Error + gmap jsstring Z :=
  match file_size fs a, file_size fs b with
  | Some sa, Some sb =>
      inr (mkCompressionRes (mkParams (Some b) (Some a) (Some sb) (Some sa)))
  | _, _ => inl (FsError (u16 "ENOENT") a)
  end.

Definition fixture_suites : list Suite :=
  [mkSuite (u16 "header") [u16 "chrome"; u16 "firefox"; u16 "ie11"];
   mkSuite (u16 "footer") [u16 "chrome"; u16 "firefox"; u16 "ie11"]].

Definition fixtureEnv : Env :=
  mkEnv relative_below
        (u16 "/usr/bin/optipng")
        fixture_execFile
        size_inspector
        (fun n affix => u16 "/tmp/" ++ affix ++ Z_toString (Z.of_nat n))
        false
        [u16 "chrome"; u16 "firefox"; u16 "ie11"]
        (fun id => u16 "/shots/" ++ id)
        (fun _ _ => inr fixture_suites)
        (fun suite state id =>
           u16 "/shots/" ++ id ++ u16 "/" ++ suite ++ u16 "/" ++ state ++ u16 ".png").

Definition fixture_files : gmap jsstring Node :=
  list_to_map
    [(u16 "/tmp", Dir);
     (u16 "/tmp/curr", Dir);
     (u16 "/tmp/curr/header", Dir);
     (u16 "/tmp/curr/header/plain.png", File 30000);
     (u16 "/shots", Dir);
     (u16 "/shots/chrome", Dir);
     (u16 "/shots/chrome/header", Dir);
     (u16 "/shots/chrome/header/plain.png", File 20000)].

Definition fixture_world (sched : list bool) : World :=
  mkWorld fixture_files 1500000000000 [] [] [] sched 0.

Definition fixture_options (cli : option (list jsstring)) : Options :=
  mkOptions None [u16 "tests"] None cli.

Definition fixture_test (id : nat) : Test :=
  mkTest id (u16 "header") (u16 "plain") (u16 "chrome")
         (u16 "/shots/chrome/header/plain.png")
         (u16 "/tmp/curr/header/plain.png").

Definition fixture_app : App :=
  mkApp (fixture_options None) (u16 "/tmp/diff") (u16 "/tmp/curr") Index_new
        (u16 "/tmp/curr")
        (zipObject (gemini_browserIds fixtureEnv)
                   (map (gemini_screenshotsDir fixtureEnv) (gemini_browserIds fixtureEnv)) ∅)
        None None.

Definition fixture_app_failed : App := addFailedTest fixture_app (fixture_test 1).

(** The viewer accepts the failing test, described by a fresh object. *)
Definition fixture_accept : (Error + jsstring) * World :=
  run fixtureEnv (updateReferenceImage fixtureEnv fixture_app_failed (fixture_test 2))
      (fixture_world []).


Definition SPACE : Z := 32.

(** A capture whose name has a space and a question mark. *)
Definition odd_diff_path : jsstring := u16 "/tmp/diff/a b?c.png".

(** ** States of the chains of [_recreateTmpDirs]

    What a chain of the first [q.all] may be while it runs, with what the
    tree then holds: it has not looked yet, it has seen [p] and is about to
    remove it, or it is done and [p] is gone. *)
Definition removal_state (p : jsstring) (chain : Prog unit)
    (fs : gmap jsstring Node) : Prop :=
  match chain with
  | Ret _ => fs !! p = None
  | Throw _ => False
  | Do c k =>
      match c return (ans c -> Prog unit) -> Prop with
      | FsExists q => fun k =>
          q = p /\ forall b : bool, k b = if b then call (FsRemoveTree p) else Ret tt
      | FsRemoveTree q => fun k =>
          q = p /\ is_Some (fs !! p) /\ forall x, k x = Ret tt
      | _ => fun _ => False
      end k
  end.

(** A chain of the second [q.all]: [p] is still to be made, or it is a
    directory. *)
Definition creation_state (p : jsstring) (chain : Prog unit)
    (fs : gmap jsstring Node) : Prop :=
  match chain with
  | Ret _ => is_dir fs p
  | Throw _ => False
  | Do c k =>
      match c return (ans c -> Prog unit) -> Prop with
      | FsMakeDirectory q => fun k =>
          q = p /\ fs !! p = None /\ forall x, k x = Ret tt
      | _ => fun _ => False
      end k
  end.

(** Two directories that are neither equal nor one inside the other. *)
Definition apart (a b : jsstring) : Prop :=
  a <> [] /\ b <> [] /\ ~ under a b /\ ~ under b a.

(** What the tree keeps while the two directories are removed: their
    parents, and nothing below a directory that is not there. *)
Definition removal_frame (a b : jsstring) (fs : gmap jsstring Node) : Prop :=
  parent_ok fs a = true /\ parent_ok fs b = true
  /\ (fs !! a = None -> nothing_below fs a)
  /\ (fs !! b = None -> nothing_below fs b).

(** What the tree keeps while the two directories are made. *)
Definition creation_frame (a b : jsstring) (fs : gmap jsstring Node) : Prop :=
  parent_ok fs a = true /\ parent_ok fs b = true
  /\ nothing_below fs a /\ nothing_below fs b.

(** The current directory holds captures of an earlier run; the diff
    directory does not exist. *)
Definition fixture_recreated : (Error + unit) * World :=
  _recreateTmpDirs fixtureEnv fixture_app (fixture_world [false; true; true; false]).

(** ** Which calls a chain makes *)

(** Every call the chain can make, whatever it is answered, satisfies [P]. *)
Fixpoint calls_in (P : Call -> Prop) {A : Type} (p : Prog A) : Prop :=
  match p with
  | Ret _ => True
  | Throw _ => True
  | Do c k => P c /\ forall x, calls_in P (k x)
  end.

(** The calls of the first group of [_recreateTmpDirs], and of the second. *)
Definition removal_call (app : App) (c : Call) : Prop :=
  match c with
  | FsExists p | FsRemoveTree p => p = currentDir app \/ p = diffDir app
  | _ => False
  end.

Definition creation_call (app : App) (c : Call) : Prop :=
  match c with
  | FsMakeDirectory p => p = currentDir app \/ p = diffDir app
  | _ => False
  end.

Definition workspace_call (app : App) (c : Call) : Prop :=
  removal_call app c \/ creation_call app c.

(** The calls of [updateReferenceImage] for a test. *)
Definition accept_call (E : Env) (test : Test) (c : Call) : Prop :=
  match c with
  | FsMakeTree p => p = path_dirname (referencePath test)
  | FsIsFile p | FsRemove p => p = referencePath test
  | ExecFile file args =>
      file = optipng E
      /\ args = [u16 "-out"; referencePath test; currentPath test]
  | CompareSize a b => a = referencePath test /\ b = currentPath test
  | ConsoleLog line => exists rate, line = updated_message (referencePath test) rate
  | DateNow => True
  | _ => False
  end.

(** A capture that was never written, and a test of a browser that has no
    reference yet. *)
Definition fixture_test_lost : Test :=
  mkTest 3 (u16 "header") (u16 "plain") (u16 "chrome")
         (u16 "/shots/chrome/header/plain.png")
         (u16 "/tmp/curr/header/lost.png").

Definition fixture_test_new : Test :=
  mkTest 4 (u16 "header") (u16 "plain") (u16 "firefox")
         (u16 "/shots/firefox/header/plain.png")
         (u16 "/tmp/curr/header/plain.png").

(** An application whose temporary directories lie in a directory that
    does not exist. *)
Definition fixture_app_nowhere : App :=
  mkApp (fixture_options None) (u16 "/nowhere/diff") (u16 "/nowhere/curr") Index_new
        (u16 "/nowhere/curr") ∅ None None.

(** A code unit that [encodeURI] can write: one it copies, or the percent
    sign of an escape. *)
Definition url_safe (c : Z) : Prop :=
  encodeURI_unescaped c = true \/ c = PERCENT.

(** * Properties of the model *)

(** ** Running promise chains *)

Lemma run_then (E : Env) {A B : Type} (p : Prog A) (f : A -> Prog B) (w : World) :
  run E (then_ p f) w =
  match run E p w with
  | (inl e, w') => (inl e, w')
  | (inr a, w') => run E (f a) w'
  end.
Proof.
  revert w. induction p as [a|e|c k IH]; intros w; simpl; try reflexivity.
  destruct (handle E c w) as [[e|x] w']; [reflexivity|apply IH].
Qed.

Lemma run_then_assoc (E : Env) {A B C : Type}
    (p : Prog A) (f : A -> Prog B) (g : B -> Prog C) (w : World) :
  run E (then_ p (fun x => then_ (f x) g)) w =
  match run E (then_ p f) w with
  | (inl e, w') => (inl e, w')
  | (inr y, w') => run E (g y) w'
  end.
Proof.
  rewrite !run_then. destruct (run E p w) as [[e|a] w']; [done|].
  by rewrite run_then.
Qed.

Lemma run_call (E : Env) (c : Call) (w : World) :
  run E (call c) w = handle E c w.
Proof. unfold call; simpl. by destruct (handle E c w) as [[e|x] w']. Qed.


Lemma handle_trace (E : Env) (c : Call) (w : World) :
  trace (handle E c w).2 = trace w ++ [c].
Proof.
  destruct c; simpl; try reflexivity;
    repeat match goal with
           | |- context [fs_result ?r _] => destruct r; simpl
           | |- context [match ?r with inl _ => _ | inr _ => _ end] => destruct r; simpl
           end; reflexivity.
Qed.

Lemma handle_stdout (E : Env) (c : Call) (w : World) :
  (forall line, c <> ConsoleLog line) ->
  stdout (handle E c w).2 = stdout w.
Proof.
  intros Hc. destruct c; simpl; try reflexivity;
    repeat match goal with
           | |- context [fs_result ?r _] => destruct r; simpl
           | |- context [match ?r with inl _ => _ | inr _ => _ end] => destruct r; simpl
           end; try reflexivity.
  by destruct (Hc line).
Qed.

(** ** The failed-test index and the rejection of unknown tests *)

(** C1: a descriptor that is not in the failed-test index makes
    [updateReferenceImage] reject with the error 'No such test failed', and
    the world is left as it was: no call is made at all, so no directory is
    created, nothing is deleted and optipng is not started. *)
Theorem updateReferenceImage_unknown_test
    (E : Env) (app : App) (testData : Test) (w : World) :
  Index_find (_failedTests app) testData = None ->
  run E (updateReferenceImage E app testData) w
    = (inl (JsError (u16 "No such test failed")), w)
  /\ trace (run E (updateReferenceImage E app testData) w).2 = trace w
  /\ files (run E (updateReferenceImage E app testData) w).2 = files w.
Proof.
  intros Hfind. unfold updateReferenceImage. rewrite Hfind. simpl. auto.
Qed.

Lemma updateReferenceImage_unknown_test_witness :
  Index_find (_failedTests fixture_app) (fixture_test 2) = None
  /\ run fixtureEnv (updateReferenceImage fixtureEnv fixture_app (fixture_test 2))
         (fixture_world [])
     = (inl (JsError (u16 "No such test failed")), fixture_world []).
Proof.
  split; [reflexivity|].
  apply (updateReferenceImage_unknown_test fixtureEnv fixture_app (fixture_test 2)).
  reflexivity.
Defined.

(** C8: after a failing test is added, a lookup with a descriptor that has
    the same suite path, state name and browser id answers the stored
    result, whatever object the descriptor is; a descriptor with another
    key is not affected, even when it is the same object. *)
Theorem failed_test_found_by_equal_fields (app : App) (test descriptor : Test) :
  suite_path descriptor = suite_path test ->
  state_name descriptor = state_name test ->
  browserId descriptor = browserId test ->
  Index_find (_failedTests (addFailedTest app test)) descriptor = Some test
  /\ (forall other : Test,
        Index_key other <> Index_key test ->
        Index_find (_failedTests (addFailedTest app test)) other
        = Index_find (_failedTests app) other).
Proof.
  intros Hs Hn Hb. unfold Index_find, addFailedTest, Index_add; simpl. split.
  - unfold Index_key. rewrite Hs, Hn, Hb. apply lookup_insert_eq.
  - intros other Hne. by rewrite lookup_insert_ne.
Qed.

Lemma failed_test_found_by_equal_fields_witness :
  obj (fixture_test 2) <> obj (fixture_test 1)
  /\ Index_find (_failedTests (addFailedTest fixture_app (fixture_test 1)))
                (fixture_test 2) = Some (fixture_test 1).
Proof.
  split; [discriminate|].
  apply (failed_test_found_by_equal_fields fixture_app (fixture_test 1) (fixture_test 2));
    reflexivity.
Defined.

(** ** Browser selection *)

(** C9: when the browser option is absent, [_readTests] stores the suites
    exactly as gemini read them: no suite's browser list is filtered. *)
Theorem readTests_without_browser_option
    (E : Env) (app : App) (w : World) (suites : list Suite) :
  browser (_options app) = None ->
  gemini_readTests E (testFiles (_options app)) (grep (_options app)) = inr suites ->
  exists app' w',
    run E (_readTests E app) w = (inr app', w')
    /\ _collection app' = Some suites
    /\ _tests app' = Some suites.
Proof.
  intros Hb Hr. unfold _readTests. rewrite Hb. simpl. rewrite Hr. simpl.
  eexists _, _. repeat split.
Qed.

Lemma readTests_without_browser_option_witness :
  exists app' w',
    run fixtureEnv (_readTests fixtureEnv fixture_app) (fixture_world []) = (inr app', w')
    /\ _collection app' = Some fixture_suites
    /\ _tests app' = Some fixture_suites.
Proof.
  apply (readTests_without_browser_option fixtureEnv fixture_app (fixture_world [])
           fixture_suites); reflexivity.
Defined.

Lemma includes_elem (l : list jsstring) (x : jsstring) :
  includes l x = true <-> x ∈ l.
Proof. unfold includes. by rewrite bool_decide_eq_true. Qed.

Lemma baseIntersection_elem (a b r : list jsstring) (x : jsstring) :
  x ∈ baseIntersection a b r <-> x ∈ r \/ (x ∈ a /\ x ∈ b).
Proof.
  revert r. induction a as [|v a IH]; intros r; simpl.
  - split; [auto|]. intros [H|[H _]]; [done|]. by apply elem_of_nil in H.
  - pose proof (includes_elem r v) as Hr. pose proof (includes_elem b v) as Hb.
    destruct (includes r v); destruct (includes b v); simpl;
      rewrite IH; try rewrite elem_of_app, list_elem_of_singleton;
      rewrite elem_of_cons; intuition (subst; auto); congruence.
Qed.

Lemma baseIntersection_NoDup (a b r : list jsstring) :
  NoDup r -> NoDup (baseIntersection a b r).
Proof.
  revert r. induction a as [|v a IH]; intros r Hr; simpl; [done|].
  destruct (includes r v) eqn:Hv; simpl; [by apply IH|].
  destruct (includes b v); [|by apply IH].
  apply IH. apply NoDup_app. repeat split; [done| |apply NoDup_singleton].
  intros x Hx Hx'. apply list_elem_of_singleton in Hx'. subst x.
  apply includes_elem in Hx. congruence.
Qed.





(** ** The compression delta *)



Lemma run_call_inv (E : Env) (c : Call) (w w' : World) (r : Error + ans c) :
  run E (call c) w = (r, w') ->
  trace w' = trace w ++ [c]
  /\ ((forall line, c <> ConsoleLog line) -> stdout w' = stdout w).
Proof.
  rewrite run_call. intros H. split.
  - pose proof (handle_trace E c w) as Ht. by rewrite H in Ht.
  - intros Hc. pose proof (handle_stdout E c w Hc) as Hs. by rewrite H in Hs.
Qed.

Tactic Notation "call_inv" hyp(H) "as" simple_intropattern(pat) :=
  match type of H with
  | run ?E (call ?c) ?w = (?r, ?w') =>
      apply (run_call_inv E c w w' r) in H as pat
  end.

Tactic Notation "run_step" hyp(H) "as" ident(x) ident(w) ident(Hr) :=
  rewrite run_then in H;
  match type of H with
  | context [match ?r with pair _ _ => _ end] =>
      let e := fresh "e" in
      destruct r as [[e|x] w] eqn:Hr; [discriminate H|]
  end.



(** ** Timestamps in URLs *)







Lemma hex_digit_not_question (d : Z) : hex_digit d <> QUESTION.
Proof. unfold hex_digit, QUESTION. destruct (Z.ltb_spec d 10); lia. Qed.

Lemma pct_utf8_no_question (cp : Z) : QUESTION ∉ pct_utf8 cp.
Proof.
  unfold pct_utf8, utf8.
  repeat match goal with |- context [if ?b then _ else _] => destruct b end;
    simpl; rewrite !elem_of_cons; intros H;
    repeat match type of H with
           | _ \/ _ => destruct H as [H|H]
           end;
    try (symmetry in H; by apply hex_digit_not_question in H);
    try discriminate H; try by apply elem_of_nil in H.
Qed.

Lemma Encode_no_question (unescaped : Z -> bool) (n : nat) (s out : jsstring) :
  (length s <= n)%nat ->
  Encode unescaped s = inr out -> QUESTION ∉ s -> QUESTION ∉ out.
Proof.
  revert s out. induction n as [|n IH]; intros s out Hlen Henc Hs.
  - destruct s; [|simpl in Hlen; lia]. simpl in Henc. injection Henc as <-.
    apply not_elem_of_nil.
  - destruct s as [|c rest]; simpl in Henc.
    { injection Henc as <-. apply not_elem_of_nil. }
    simpl in Hlen. apply not_elem_of_cons in Hs as [Hc Hrest].
    destruct (unescaped c).
    { destruct (Encode unescaped rest) as [e|o] eqn:Hr; simpl in Henc; [discriminate|].
      injection Henc as <-. simpl. apply not_elem_of_cons. split; [done|].
      apply (IH rest); [lia|done|done]. }
    destruct (is_low_surrogate c); [discriminate|].
    destruct (is_high_surrogate c).
    + destruct rest as [|c2 rest']; [discriminate|].
      destruct (is_low_surrogate c2); [|discriminate].
      destruct (Encode unescaped rest') as [e|o] eqn:Hr; simpl in Henc; [discriminate|].
      injection Henc as <-. rewrite elem_of_app. intros [H|H].
      * by apply pct_utf8_no_question in H.
      * apply not_elem_of_cons in Hrest as [_ Hrest'].
        revert H. apply (IH rest'); [simpl in Hlen; lia|done|done].
    + destruct (Encode unescaped rest) as [e|o] eqn:Hr; simpl in Henc; [discriminate|].
      injection Henc as <-. rewrite elem_of_app. intros [H|H].
      * by apply pct_utf8_no_question in H.
      * revert H. apply (IH rest); [lia|done|done].
Qed.






(** ** Percent-encoding of paths *)

Lemma hex_value_digit (d : Z) : 0 <= d < 16 -> hex_value (hex_digit d) = Some d.
Proof.
  intros Hd.
  assert (d = 0 \/ d = 1 \/ d = 2 \/ d = 3 \/ d = 4 \/ d = 5 \/ d = 6 \/ d = 7 \/
          d = 8 \/ d = 9 \/ d = 10 \/ d = 11 \/ d = 12 \/ d = 13 \/ d = 14 \/ d = 15)
    as Hcases by lia.
  repeat destruct Hcases as [->|Hcases]; try reflexivity. by subst d.
Qed.

Lemma parse_escape_pct (b : Z) (r : jsstring) :
  0 <= b < 256 -> parse_escape (pct b ++ r) = Some (b, r).
Proof.
  intros Hb. unfold pct, parse_escape. simpl.
  rewrite !hex_value_digit by (Z.div_mod_to_equations; lia).
  do 2 f_equal. Z.div_mod_to_equations; lia.
Qed.

Lemma parse_continuations_pct (bs : list Z) (r : jsstring) :
  Forall is_octet_continuation bs ->
  parse_continuations (length bs) (concat (map pct bs) ++ r) = Some (bs, r).
Proof.
  induction 1 as [|b bs Hb Hbs IH]; [reflexivity|].
  cbn [length map concat parse_continuations]. rewrite <- app_assoc.
  unfold is_octet_continuation in Hb.
  rewrite parse_escape_pct by lia.
  unfold is_continuation.
  destruct (Z.leb_spec 0x80 b); [|lia]. destruct (Z.leb_spec b 0xBF); [|lia].
  cbn [andb]. by rewrite IH.
Qed.

Lemma decode_units_sequence (b0 : Z) (bs : list Z) (cp : Z) (r : jsstring) :
  0x80 <= b0 < 256 ->
  continuation_count b0 = Some (length bs) ->
  Forall is_octet_continuation bs ->
  utf8_code_point b0 bs = Some cp ->
  decode_units (concat (map pct (b0 :: bs)) ++ r) = Some (UTF16EncodeCodePoint cp, r).
Proof.
  intros Hb0 Hn Hbs Hcp.
  cbn [map concat]. rewrite <- app_assoc.
  change (pct b0 ++ concat (map pct bs) ++ r)
    with (PERCENT :: ([hex_digit (b0 / 16); hex_digit (b0 mod 16)]
                      ++ concat (map pct bs) ++ r)).
  cbn [decode_units]. unfold decode_step. rewrite Z.eqb_refl.
  change (PERCENT :: ([hex_digit (b0 / 16); hex_digit (b0 mod 16)]
                      ++ concat (map pct bs) ++ r))
    with (pct b0 ++ concat (map pct bs) ++ r).
  rewrite parse_escape_pct by lia.
  destruct (Z.ltb_spec b0 0x80); [lia|].
  rewrite Hn, parse_continuations_pct by assumption. by rewrite Hcp.
Qed.

Ltac decide_bools :=
  repeat match goal with
         | |- context [Z.ltb ?a ?b] => destruct (Z.ltb_spec a b); try lia
         | |- context [Z.leb ?a ?b] => destruct (Z.leb_spec a b); try lia
         | |- context [Z.eqb ?a ?b] => destruct (Z.eqb_spec a b); try lia
         end.

Lemma utf8_multi_octet (cp : Z) :
  is_scalar cp -> 0x80 <= cp ->
  exists b0 bs,
    utf8 cp = b0 :: bs
    /\ 0x80 <= b0 < 256
    /\ continuation_count b0 = Some (length bs)
    /\ Forall is_octet_continuation bs
    /\ utf8_code_point b0 bs = Some cp.
Proof.
  intros [Hr Hs] Hlo. unfold utf8.
  destruct (Z.ltb_spec cp 0x80); [lia|].
  destruct (Z.ltb_spec cp 0x800); [|destruct (Z.ltb_spec cp 0x10000)].
  - eexists _, _. split; [reflexivity|].
    assert (2 <= cp / 64 < 32) by (Z.div_mod_to_equations; lia).
    assert (0 <= cp mod 64 < 64) by (Z.div_mod_to_equations; lia).
    split; [lia|]. split.
    { unfold continuation_count. decide_bools. reflexivity. }
    split.
    { repeat constructor; unfold is_octet_continuation; lia. }
    unfold utf8_code_point.
    replace ((192 + cp / 64 - 192) * 64 + (128 + cp mod 64 - 128)) with cp
      by (Z.div_mod_to_equations; lia).
    decide_bools. reflexivity.
  - eexists _, _. split; [reflexivity|].
    assert (0 <= cp / 4096 < 16) by (Z.div_mod_to_equations; lia).
    assert (0 <= (cp / 64) mod 64 < 64) by (Z.div_mod_to_equations; lia).
    assert (0 <= cp mod 64 < 64) by (Z.div_mod_to_equations; lia).
    split; [lia|]. split.
    { unfold continuation_count. decide_bools. reflexivity. }
    split.
    { repeat constructor; unfold is_octet_continuation; lia. }
    unfold utf8_code_point.
    replace ((224 + cp / 4096 - 224) * 4096 + (128 + (cp / 64) mod 64 - 128) * 64
             + (128 + cp mod 64 - 128)) with cp
      by (Z.div_mod_to_equations; lia).
    decide_bools; reflexivity.
  - eexists _, _. split; [reflexivity|].
    assert (0 <= cp / 262144 < 5) by (Z.div_mod_to_equations; lia).
    assert (0 <= (cp / 4096) mod 64 < 64) by (Z.div_mod_to_equations; lia).
    assert (0 <= (cp / 64) mod 64 < 64) by (Z.div_mod_to_equations; lia).
    assert (0 <= cp mod 64 < 64) by (Z.div_mod_to_equations; lia).
    split; [lia|]. split.
    { unfold continuation_count. decide_bools. reflexivity. }
    split.
    { repeat constructor; unfold is_octet_continuation; lia. }
    unfold utf8_code_point.
    replace ((240 + cp / 262144 - 240) * 262144 + (128 + (cp / 4096) mod 64 - 128) * 4096
             + (128 + (cp / 64) mod 64 - 128) * 64 + (128 + cp mod 64 - 128)) with cp
      by (Z.div_mod_to_equations; lia).
    decide_bools; reflexivity.
Qed.

(** One escaped code point decodes to its UTF-16 code units. *)
Lemma decode_units_pct_utf8 (cp : Z) (r : jsstring) :
  is_scalar cp ->
  decode_units (pct_utf8 cp ++ r) = Some (UTF16EncodeCodePoint cp, r).
Proof.
  intros Hs. destruct (Z.ltb_spec cp 0x80) as [Hlt|Hge].
  - unfold pct_utf8, utf8. destruct (Z.ltb_spec cp 0x80); [|lia].
    cbn [map concat]. rewrite app_nil_r.
    change (pct cp ++ r)
      with (PERCENT :: ([hex_digit (cp / 16); hex_digit (cp mod 16)] ++ r)).
    cbn [decode_units]. unfold decode_step. rewrite Z.eqb_refl.
    change (PERCENT :: ([hex_digit (cp / 16); hex_digit (cp mod 16)] ++ r))
      with (pct cp ++ r).
    destruct Hs as [Hr _]. rewrite parse_escape_pct by lia.
    destruct (Z.ltb_spec cp 0x80); [|lia].
    unfold UTF16EncodeCodePoint. destruct (Z.leb_spec cp 0xFFFF); [reflexivity|lia].
  - destruct (utf8_multi_octet cp Hs Hge) as (b0 & bs & Hu & Hb0 & Hn & Hbs & Hcp).
    unfold pct_utf8. rewrite Hu. by apply decode_units_sequence.
Qed.

Lemma pct_utf8_length (cp : Z) : (3 <= length (pct_utf8 cp))%nat.
Proof.
  unfold pct_utf8, utf8.
  repeat match goal with |- context [if ?b then _ else _] => destruct b end;
    simpl; lia.
Qed.

Lemma Decode_units (s units r : jsstring) (fuel : nat) :
  decode_units s = Some (units, r) ->
  (length s <= fuel)%nat ->
  Decode fuel s = cons_out units (Decode (fuel - 1) r).
Proof.
  destruct s as [|c rest]; [discriminate|]. cbn [decode_units]. intros Hd Hlen.
  destruct fuel as [|f]; [simpl in Hlen; lia|]. cbn [Decode]. rewrite Hd.
  by replace (S f - 1)%nat with f by lia.
Qed.

Lemma surrogate_pair_scalar (hi lo : Z) :
  is_high_surrogate hi = true -> is_low_surrogate lo = true ->
  is_scalar (surrogate_pair_cp hi lo)
  /\ UTF16EncodeCodePoint (surrogate_pair_cp hi lo) = [hi; lo].
Proof.
  unfold is_high_surrogate, is_low_surrogate, surrogate_pair_cp, is_scalar.
  rewrite !andb_true_iff, !Z.leb_le. intros [H1 H2] [H3 H4]. split; [lia|].
  unfold UTF16EncodeCodePoint.
  destruct (Z.leb_spec ((hi - 55296) * 1024 + (lo - 56320) + 65536) 65535); [lia|].
  f_equal; [|f_equal]; Z.div_mod_to_equations; lia.
Qed.

Lemma mem_units_elem (c : Z) (l : jsstring) : mem_units c l = true -> c ∈ l.
Proof.
  unfold mem_units. rewrite existsb_exists. intros (x & Hx & Heq).
  apply Z.eqb_eq in Heq. subst x. by apply list_elem_of_In.
Qed.

Lemma unescaped_ascii (c : Z) : encodeURI_unescaped c = true -> 0 <= c < 128.
Proof.
  assert (Hm : Forall (fun x => 0 <= x < 128) (uriMark ++ uriReserved)).
  { let l := eval vm_compute in (uriMark ++ uriReserved) in
    change (uriMark ++ uriReserved) with l.
    repeat (constructor; [lia|]). constructor. }
  rewrite Forall_forall in Hm.
  unfold encodeURI_unescaped, is_alpha, is_digit, HASH.
  rewrite !orb_true_iff, !andb_true_iff, !Z.leb_le, Z.eqb_eq.
  intros [[[[[H|H]|H]|H]|H]|H]; try lia.
  - apply mem_units_elem in H. apply Hm. apply elem_of_app. by left.
  - apply mem_units_elem in H. apply Hm. apply elem_of_app. by right.
Qed.

Lemma unescaped_not_percent (c : Z) : encodeURI_unescaped c = true -> c <> PERCENT.
Proof. intros H ->. discriminate H. Qed.

Lemma unescaped_not_surrogate (c : Z) :
  encodeURI_unescaped c = true ->
  is_low_surrogate c = false /\ is_high_surrogate c = false.
Proof.
  intros H. apply unescaped_ascii in H.
  unfold is_low_surrogate, is_high_surrogate.
  rewrite !andb_false_iff, !Z.leb_gt. lia.
Qed.

(** What [encodeURI] writes decodes back to the string it was given. *)
Lemma Decode_Encode (n : nat) (s out : jsstring) :
  (length s <= n)%nat ->
  Forall is_code_unit s ->
  encodeURI s = inr out ->
  forall fuel, (length out <= fuel)%nat -> Decode fuel out = inr s.
Proof.
  unfold encodeURI.
  revert s out. induction n as [|n IH]; intros s out Hlen Hcu Henc fuel Hfuel.
  { destruct s; [|simpl in Hlen; lia]. simpl in Henc. injection Henc as <-.
    by destruct fuel. }
  destruct s as [|c rest]; simpl in Henc.
  { injection Henc as <-. by destruct fuel. }
  simpl in Hlen. apply Forall_cons in Hcu as [Hc Hrest].
  destruct (encodeURI_unescaped c) eqn:Hu.
  { destruct (Encode encodeURI_unescaped rest) as [e|o] eqn:Hr; simpl in Henc;
      [discriminate|]. injection Henc as <-.
    simpl in Hfuel. destruct fuel as [|f]; [lia|]. simpl.
    unfold decode_step. apply unescaped_not_percent in Hu.
    destruct (Z.eqb_spec c PERCENT); [done|].
    rewrite (IH rest o); [done|lia|done|done|lia]. }
  destruct (is_low_surrogate c) eqn:Hlow; [discriminate|].
  destruct (is_high_surrogate c) eqn:Hhigh.
  - destruct rest as [|c2 rest']; [discriminate|].
    destruct (is_low_surrogate c2) eqn:Hlow2; [|discriminate].
    destruct (Encode encodeURI_unescaped rest') as [e|o] eqn:Hr; simpl in Henc;
      [discriminate|]. injection Henc as <-.
    destruct (surrogate_pair_scalar c c2 Hhigh Hlow2) as [Hsc Hunits].
    rewrite (Decode_units _ _ _ _ (decode_units_pct_utf8 _ o Hsc) Hfuel).
    rewrite Hunits. apply Forall_cons in Hrest as [_ Hrest'].
    pose proof (pct_utf8_length (surrogate_pair_cp c c2)) as Hl.
    rewrite length_app in Hfuel. simpl in Hlen.
    rewrite (IH rest' o); [done|lia|done|done|lia].
  - destruct (Encode encodeURI_unescaped rest) as [e|o] eqn:Hr; simpl in Henc;
      [discriminate|]. injection Henc as <-.
    assert (Hsc : is_scalar c).
    { unfold is_code_unit in Hc. unfold is_scalar.
      unfold is_low_surrogate in Hlow. unfold is_high_surrogate in Hhigh.
      rewrite andb_false_iff, !Z.leb_gt in Hlow, Hhigh. lia. }
    rewrite (Decode_units _ _ _ _ (decode_units_pct_utf8 _ o Hsc) Hfuel).
    unfold UTF16EncodeCodePoint. unfold is_code_unit in Hc.
    destruct (Z.leb_spec c 0xFFFF); [|lia].
    pose proof (pct_utf8_length c) as Hl. rewrite length_app in Hfuel.
    rewrite (IH rest o); [done|lia|done|done|lia].
Qed.

Lemma decodeURIComponent_encodeURI (s out : jsstring) :
  Forall is_code_unit s -> encodeURI s = inr out -> decodeURIComponent out = inr s.
Proof.
  intros Hcu Henc. unfold decodeURIComponent.
  by apply (Decode_Encode (length s) s out).
Qed.

Lemma encodeURI_total (n : nat) (s : jsstring) :
  (length s <= n)%nat -> well_formed s = true -> exists out, encodeURI s = inr out.
Proof.
  unfold encodeURI. revert s. induction n as [|n IH]; intros s Hlen Hwf.
  { destruct s; [by exists []|simpl in Hlen; lia]. }
  destruct s as [|c rest]; [by exists []|]. simpl in *.
  destruct (encodeURI_unescaped c) eqn:Hu.
  { assert (well_formed rest = true) as Hr.
    { destruct (unescaped_not_surrogate c Hu) as [Hl Hh]. by rewrite Hl, Hh in Hwf. }
    destruct (IH rest) as [o Ho]; [lia|done|]. rewrite Ho. eexists; reflexivity. }
  destruct (is_low_surrogate c); [discriminate|].
  destruct (is_high_surrogate c).
  - destruct rest as [|c2 rest']; [discriminate|].
    apply andb_true_iff in Hwf as [Hl2 Hwf]. rewrite Hl2.
    destruct (IH rest') as [o Ho]; [simpl in Hlen; lia|done|].
    rewrite Ho. eexists; reflexivity.
  - destruct (IH rest) as [o Ho]; [lia|done|]. rewrite Ho. eexists; reflexivity.
Qed.

Lemma hex_digit_hash (d : Z) : hex_digit d = HASH -> d < 0.
Proof. unfold hex_digit, HASH. destruct (Z.ltb_spec d 10); lia. Qed.

Lemma pct_utf8_no_hash (cp : Z) : 0 <= cp -> HASH ∉ pct_utf8 cp.
Proof.
  intros Hcp. unfold pct_utf8, utf8.
  repeat match goal with |- context [if ?b then _ else _] => destruct b end;
    simpl; rewrite !elem_of_cons; intros H;
    repeat match type of H with
           | _ \/ _ => destruct H as [H|H]
           end;
    try (symmetry in H; apply hex_digit_hash in H; Z.div_mod_to_equations; lia);
    try discriminate H; try by apply elem_of_nil in H.
Qed.

Lemma Encode_no_hash (n : nat) (s out : jsstring) :
  (length s <= n)%nat ->
  Forall is_code_unit s ->
  encodeURI s = inr out -> HASH ∉ s -> HASH ∉ out.
Proof.
  unfold encodeURI.
  revert s out. induction n as [|n IH]; intros s out Hlen Hcu Henc Hs.
  - destruct s; [|simpl in Hlen; lia]. simpl in Henc. injection Henc as <-.
    apply not_elem_of_nil.
  - destruct s as [|c rest]; simpl in Henc.
    { injection Henc as <-. apply not_elem_of_nil. }
    simpl in Hlen. apply not_elem_of_cons in Hs as [Hc Hrest].
    apply Forall_cons in Hcu as [Hcc Hcr].
    destruct (encodeURI_unescaped c).
    { destruct (Encode encodeURI_unescaped rest) as [e|o] eqn:Hr; simpl in Henc;
        [discriminate|].
      injection Henc as <-. simpl. apply not_elem_of_cons. split; [done|].
      apply (IH rest); [lia|done|done|done]. }
    destruct (is_low_surrogate c); [discriminate|].
    destruct (is_high_surrogate c) eqn:Hhigh.
    + destruct rest as [|c2 rest']; [discriminate|].
      destruct (is_low_surrogate c2) eqn:Hlow2; [|discriminate].
      destruct (Encode encodeURI_unescaped rest') as [e|o] eqn:Hr; simpl in Henc;
        [discriminate|].
      injection Henc as <-. rewrite elem_of_app. intros [H|H].
      * revert H. apply pct_utf8_no_hash.
        destruct (surrogate_pair_scalar c c2 Hhigh Hlow2) as [[Hsc _] _]. lia.
      * apply not_elem_of_cons in Hrest as [_ Hrest'].
        apply Forall_cons in Hcr as [_ Hcr'].
        revert H. apply (IH rest'); [simpl in Hlen; lia|done|done|done].
    + destruct (Encode encodeURI_unescaped rest) as [e|o] eqn:Hr; simpl in Henc;
        [discriminate|].
      injection Henc as <-. rewrite elem_of_app. intros [H|H].
      * revert H. apply pct_utf8_no_hash. unfold is_code_unit in Hcc. lia.
      * revert H. apply (IH rest); [lia|done|done|done].
Qed.

Lemma url_path_all (u : jsstring) :
  QUESTION ∉ u -> HASH ∉ u -> url_path u = u.
Proof.
  induction u as [|c u IH]; [done|]. intros Hq Hh.
  apply not_elem_of_cons in Hq as [Hq1 Hq2]. apply not_elem_of_cons in Hh as [Hh1 Hh2].
  simpl. destruct (Z.eqb_spec c QUESTION); [congruence|].
  destruct (Z.eqb_spec c HASH); [congruence|]. simpl. by rewrite IH.
Qed.

Lemma url_path_cut (a b : jsstring) (c : Z) :
  QUESTION ∉ a -> HASH ∉ a -> c = QUESTION \/ c = HASH ->
  url_path (a ++ c :: b) = a.
Proof.
  induction a as [|x a IH]; intros Hq Hh Hc.
  - simpl. by destruct Hc as [->| ->].
  - apply not_elem_of_cons in Hq as [Hq1 Hq2]. apply not_elem_of_cons in Hh as [Hh1 Hh2].
    simpl. destruct (Z.eqb_spec x QUESTION); [congruence|].
    destruct (Z.eqb_spec x HASH); [congruence|]. simpl. by rewrite IH.
Qed.

Lemma first_reserved (s : jsstring) :
  QUESTION ∈ s \/ HASH ∈ s ->
  exists a c b,
    s = a ++ c :: b /\ (c = QUESTION \/ c = HASH) /\ (QUESTION ∉ a) /\ (HASH ∉ a).
Proof.
  induction s as [|x s IH]; intros H.
  - destruct H as [H|H]; by apply elem_of_nil in H.
  - destruct (decide (x = QUESTION \/ x = HASH)) as [Hx|Hx].
    + exists [], x, s. repeat split; [done|apply not_elem_of_nil..].
    + destruct IH as (a & c & b & -> & Hc & Hq & Hh).
      { rewrite !elem_of_cons in H.
        destruct H as [[<-|H]|[<-|H]]; auto; destruct Hx; auto. }
      exists (x :: a), c, b. repeat split; [done|..];
        apply not_elem_of_cons; split; auto.
Qed.

Lemma reserved_unescaped (c : Z) :
  c = QUESTION \/ c = HASH -> encodeURI_unescaped c = true.
Proof. by intros [->| ->]. Qed.

Lemma encodeURI_split (n : nat) (a b out : jsstring) (c : Z) :
  (length a <= n)%nat ->
  encodeURI_unescaped c = true ->
  encodeURI (a ++ c :: b) = inr out ->
  exists ea eb,
    encodeURI a = inr ea /\ encodeURI b = inr eb /\ out = ea ++ c :: eb.
Proof.
  unfold encodeURI. intros Hlen Hc. revert a out Hlen.
  induction n as [|n IH]; intros a out Hlen Henc.
  { destruct a; [|simpl in Hlen; lia]. simpl in Henc. rewrite Hc in Henc.
    destruct (Encode encodeURI_unescaped b) as [e|eb]; [discriminate|].
    injection Henc as <-. by exists [], eb. }
  destruct a as [|x a].
  { simpl in Henc. rewrite Hc in Henc.
    destruct (Encode encodeURI_unescaped b) as [e|eb]; [discriminate|].
    injection Henc as <-. by exists [], eb. }
  simpl in Henc, Hlen. simpl.
  destruct (encodeURI_unescaped x).
  { destruct (Encode encodeURI_unescaped (a ++ c :: b)) as [e|o] eqn:Hr;
      [discriminate|]. injection Henc as <-.
    destruct (IH a o) as (ea & eb & Ha & Hb & ->); [lia|done|].
    rewrite Ha. by exists (x :: ea), eb. }
  destruct (is_low_surrogate x); [discriminate|].
  destruct (is_high_surrogate x).
  - destruct a as [|c2 a']; simpl in Henc.
    { destruct (unescaped_not_surrogate c Hc) as [Hl _]. rewrite Hl in Henc.
      discriminate. }
    destruct (is_low_surrogate c2); [|discriminate].
    destruct (Encode encodeURI_unescaped (a' ++ c :: b)) as [e|o] eqn:Hr;
      [discriminate|]. injection Henc as <-.
    destruct (IH a' o) as (ea & eb & Ha & Hb & ->); [simpl in Hlen; lia|done|].
    rewrite Ha. exists (pct_utf8 (surrogate_pair_cp x c2) ++ ea), eb.
    split; [done|]. split; [done|]. by rewrite <- app_assoc.
  - destruct (Encode encodeURI_unescaped (a ++ c :: b)) as [e|o] eqn:Hr;
      [discriminate|]. injection Henc as <-.
    destruct (IH a o) as (ea & eb & Ha & Hb & ->); [lia|done|].
    rewrite Ha. exists (pct_utf8 x ++ ea), eb.
    split; [done|]. split; [done|]. by rewrite <- app_assoc.
Qed.

Lemma encodeURI_keeps (n : nat) (s out : jsstring) (c : Z) :
  (length s <= n)%nat ->
  encodeURI_unescaped c = true ->
  encodeURI s = inr out -> c ∈ s -> c ∈ out.
Proof.
  unfold encodeURI. intros Hlen Hc. revert s out Hlen.
  induction n as [|n IH]; intros s out Hlen Henc Hin.
  { destruct s; [by apply elem_of_nil in Hin|simpl in Hlen; lia]. }
  destruct s as [|x rest]; [by apply elem_of_nil in Hin|].
  simpl in Henc, Hlen.
  destruct (encodeURI_unescaped x) eqn:Hx.
  { destruct (Encode encodeURI_unescaped rest) as [e|o] eqn:Hr; [discriminate|].
    injection Henc as <-. apply elem_of_cons in Hin as [->|Hin]; [by left|].
    right. apply (IH rest); [lia|done|done]. }
  assert (c <> x) as Hne by congruence.
  apply elem_of_cons in Hin as [Hin|Hin]; [done|].
  destruct (is_low_surrogate x); [discriminate|].
  destruct (is_high_surrogate x).
  - destruct rest as [|c2 rest']; [discriminate|].
    destruct (is_low_surrogate c2) eqn:Hl2; [|discriminate].
    destruct (Encode encodeURI_unescaped rest') as [e|o] eqn:Hr; [discriminate|].
    injection Henc as <-.
    apply elem_of_cons in Hin as [->|Hin].
    { destruct (unescaped_not_surrogate c2 Hc). congruence. }
    apply elem_of_app. right. apply (IH rest'); [simpl in Hlen; lia|done|done].
  - destruct (Encode encodeURI_unescaped rest) as [e|o] eqn:Hr; [discriminate|].
    injection Henc as <-.
    apply elem_of_app. right. apply (IH rest); [lia|done|done].
Qed.

Lemma pathToURL_inv (E : Env) (rootDir fullPath prefix url : jsstring) :
  _pathToURL E rootDir fullPath prefix = inr url ->
  exists encoded,
    encodeURI (path_relative E rootDir fullPath) = inr encoded
    /\ url = (prefix ++ u16 "/") ++ encoded
    /\ drop (length (prefix ++ u16 "/")) url = encoded.
Proof.
  unfold _pathToURL. destruct (encodeURI _) as [e|encoded]; [discriminate|].
  cbn [cons_out]. intros H. exists encoded. split; [done|].
  assert (url = (prefix ++ u16 "/") ++ encoded) as -> by congruence.
  split; [done|]. apply drop_app_length.
Qed.

Ltac evaluate_path :=
  match goal with
  | |- context [path_relative ?E ?a ?b] =>
      let l := eval vm_compute in (path_relative E a b) in
      change (path_relative E a b) with l
  end.

(** C6, as the code has it: when the relative path is well-formed UTF-16
    and has neither [?] nor [#] (spaces and other Unicode characters are
    allowed), the mapping succeeds, and percent-decoding the path portion of
    the URL, the namespace prefix stripped, gives back the relative path. *)
Theorem pathToURL_round_trip (E : Env) (rootDir fullPath prefix : jsstring) :
  Forall is_code_unit (path_relative E rootDir fullPath) ->
  well_formed (path_relative E rootDir fullPath) = true ->
  QUESTION ∉ path_relative E rootDir fullPath ->
  HASH ∉ path_relative E rootDir fullPath ->
  exists url,
    _pathToURL E rootDir fullPath prefix = inr url
    /\ decodeURIComponent (url_path (drop (length (prefix ++ u16 "/")) url))
       = inr (path_relative E rootDir fullPath).
Proof.
  intros Hcu Hwf Hq Hh.
  destruct (encodeURI_total _ _ (Nat.le_refl _) Hwf) as [encoded Henc].
  exists ((prefix ++ u16 "/") ++ encoded). split.
  { unfold _pathToURL. by rewrite Henc. }
  rewrite drop_app_length.
  rewrite url_path_all.
  - by apply decodeURIComponent_encodeURI.
  - eapply Encode_no_question; [reflexivity|exact Henc|exact Hq].
  - eapply Encode_no_hash; [reflexivity|exact Hcu|exact Henc|exact Hh].
Qed.

Lemma pathToURL_round_trip_witness :
  exists url,
    _pathToURL fixtureEnv (u16 "/tmp/diff") ((u16 "/tmp/diff/a ") ++ [0x20AC; 0xD83D; 0xDE00])
               diffPrefix = inr url
    /\ decodeURIComponent (url_path (drop (length (diffPrefix ++ u16 "/")) url))
       = inr ((u16 "a ") ++ [0x20AC; 0xD83D; 0xDE00]).
Proof.
  apply (pathToURL_round_trip fixtureEnv (u16 "/tmp/diff")
           ((u16 "/tmp/diff/a ") ++ [0x20AC; 0xD83D; 0xDE00]) diffPrefix).
  - evaluate_path. repeat (constructor; [unfold is_code_unit; lia|]). constructor.
  - reflexivity.
  - evaluate_path. intros H.
    repeat (apply elem_of_cons in H as [H|H]; [discriminate|]). by apply elem_of_nil in H.
  - evaluate_path. intros H.
    repeat (apply elem_of_cons in H as [H|H]; [discriminate|]). by apply elem_of_nil in H.
Defined.

(** C6 as stated fails: a relative path with a space and a question mark
    is mapped to a URL whose path portion stops at the question mark, and
    decoding it gives only the part of the path before it. The same happens
    at a [#]; and for a path with an unpaired surrogate there is no URL at
    all, [encodeURI] throws. *)
Lemma pathToURL_round_trip_counterexample :
  SPACE ∈ path_relative fixtureEnv (diffDir fixture_app) odd_diff_path
  /\ _pathToURL fixtureEnv (diffDir fixture_app) odd_diff_path diffPrefix
     = inr (u16 "/diff/a%20b?c.png")
  /\ decodeURIComponent
       (url_path (drop (length (diffPrefix ++ u16 "/")) (u16 "/diff/a%20b?c.png")))
     = inr (u16 "a b")
  /\ decodeURIComponent
       (url_path (drop (length (diffPrefix ++ u16 "/")) (u16 "/diff/a%20b?c.png")))
     <> inr (path_relative fixtureEnv (diffDir fixture_app) odd_diff_path)
  /\ _pathToURL fixtureEnv (diffDir fixture_app) (u16 "/tmp/diff/a b#c.png") diffPrefix
     = inr (u16 "/diff/a%20b#c.png")
  /\ decodeURIComponent
       (url_path (drop (length (diffPrefix ++ u16 "/")) (u16 "/diff/a%20b#c.png")))
     = inr (u16 "a b")
  /\ _pathToURL fixtureEnv (diffDir fixture_app) (u16 "/tmp/diff/a " ++ [0xD83D]) diffPrefix
     = inl malformed.
Proof.
  split; [|split; [|split; [|split; [|split; [|split]]]]].
  - evaluate_path. apply list_elem_of_In. simpl. tauto.
  - vm_compute. reflexivity.
  - vm_compute. reflexivity.
  - vm_compute. discriminate.
  - vm_compute. reflexivity.
  - vm_compute. reflexivity.
  - vm_compute. reflexivity.
Qed.

(** C10: [encodeURI] leaves [?] and [#] as they are. Whenever the relative
    path contains one of them, the URL contains it verbatim after the
    prefix, and its path portion, percent-decoded, is not the relative path;
    the path [a b?c.png] below the diff directory is such an input. *)
Theorem pathToURL_keeps_reserved :
  (forall (E : Env) (rootDir fullPath prefix url : jsstring) (c : Z),
      c = QUESTION \/ c = HASH ->
      c ∈ path_relative E rootDir fullPath ->
      Forall is_code_unit (path_relative E rootDir fullPath) ->
      _pathToURL E rootDir fullPath prefix = inr url ->
      c ∈ drop (length (prefix ++ u16 "/")) url
      /\ decodeURIComponent (url_path (drop (length (prefix ++ u16 "/")) url))
         <> inr (path_relative E rootDir fullPath))
  /\ (QUESTION ∈ path_relative fixtureEnv (diffDir fixture_app) odd_diff_path
      /\ diffPathToURL fixtureEnv fixture_app odd_diff_path
         = inr (u16 "/diff/a%20b?c.png")).
Proof.
  split.
  - intros E rootDir fullPath prefix url c Hc Hin Hcu Hurl.
    apply pathToURL_inv in Hurl as (encoded & Henc & _ & ->).
    destruct (first_reserved (path_relative E rootDir fullPath))
      as (a & c' & b & Hrel & Hc' & Hq & Hh).
    { destruct Hc as [->| ->]; auto. }
    split.
    { eapply encodeURI_keeps; [reflexivity|by apply reserved_unescaped|exact Henc|exact Hin]. }
    rewrite Hrel in Henc, Hcu |- *.
    destruct (encodeURI_split _ a b encoded c' (Nat.le_refl _)
                (reserved_unescaped c' Hc') Henc) as (ea & eb & Ha & Hb & ->).
    apply Forall_app in Hcu as [Hcua Hcub].
    rewrite url_path_cut; [|eapply Encode_no_question; [reflexivity|exact Ha|exact Hq]
                           |eapply Encode_no_hash; [reflexivity|exact Hcua|exact Ha|exact Hh]
                           |exact Hc'].
    rewrite (decodeURIComponent_encodeURI a ea Hcua Ha).
    intros Heq. injection Heq as Heq.
    apply (f_equal length) in Heq. rewrite length_app in Heq. simpl in Heq. lia.
  - split; [|vm_compute; reflexivity].
    evaluate_path. apply list_elem_of_In. simpl. tauto.
Qed.

Lemma pathToURL_keeps_reserved_witness :
  QUESTION ∈ drop (length (diffPrefix ++ u16 "/")) (u16 "/diff/a%20b?c.png")
  /\ decodeURIComponent
       (url_path (drop (length (diffPrefix ++ u16 "/")) (u16 "/diff/a%20b?c.png")))
     <> inr (path_relative fixtureEnv (diffDir fixture_app) odd_diff_path).
Proof.
  destruct pathToURL_keeps_reserved as [Hall _].
  apply (Hall fixtureEnv (diffDir fixture_app) odd_diff_path diffPrefix
              (u16 "/diff/a%20b?c.png") QUESTION).
  - by left.
  - evaluate_path. apply list_elem_of_In. simpl. tauto.
  - evaluate_path. repeat (constructor; [unfold is_code_unit; lia|]). constructor.
  - vm_compute. reflexivity.
Defined.

(** ** The file system *)

Lemma slash_prefixes_complete (k pre p : jsstring) :
  p <> [] ->
  (p ++ [SLASH]) `prefix_of` (pre ++ k) ->
  (length pre <= length p)%nat ->
  p ∈ slash_prefixes pre k.
Proof.
  revert pre. induction k as [|c rest IH]; intros pre Hp [t Ht] Hlen.
  - apply (f_equal length) in Ht. rewrite !length_app in Ht. simpl in Ht. lia.
  - simpl. apply elem_of_app.
    destruct (decide (length pre = length p)) as [Heq|Hne].
    + left. rewrite <- app_assoc in Ht. apply app_inj_1 in Ht as [-> Ht]; [|done].
      simpl in Ht. injection Ht as -> _. rewrite Z.eqb_refl.
      rewrite bool_decide_eq_false_2 by done. simpl. by left.
    + right. apply IH; [done| |rewrite length_app; simpl; lia].
      exists t. by rewrite <- app_assoc.
Qed.

Lemma wf_above (fs : gmap jsstring Node) (k p : jsstring) :
  fs_wf fs -> is_Some (fs !! k) -> p <> [] ->
  (p ++ [SLASH]) `prefix_of` k -> is_dir fs p.
Proof.
  intros Hwf [x Hk] Hp Hpre. specialize (Hwf k x Hk). simpl in Hwf.
  rewrite Forall_forall in Hwf. apply Hwf.
  apply slash_prefixes_complete; [done|done|simpl; lia].
Qed.

Lemma dirname_scan_slash (path : jsstring) (i : nat) (m : bool) (e : nat) :
  dirname_scan path i m = Some e -> (1 <= e)%nat /\ path !! e = Some SLASH.
Proof.
  revert m. induction i as [|j IH]; intros m; simpl; [discriminate|].
  destruct (path !! S j) as [c|] eqn:Hc; [|discriminate].
  destruct (Z.eqb_spec c SLASH) as [->|_].
  - destruct m; [apply IH|]. intros [= <-]. split; [lia|done].
  - apply IH.
Qed.

Lemma path_dirname_above (p : jsstring) :
  is_fs_root (path_dirname p) = true
  \/ (path_dirname p <> [] /\ (path_dirname p ++ [SLASH]) `prefix_of` p).
Proof.
  unfold path_dirname. destruct p as [|c0 p']; [by left|].
  destruct (dirname_scan (c0 :: p') (length (c0 :: p') - 1) true) as [e|] eqn:Hscan.
  - apply dirname_scan_slash in Hscan as [He Hsl].
    destruct ((c0 =? SLASH) && (e =? 1)%nat); [by left|]. right. split.
    + destruct e; [lia|]. discriminate.
    + exists (drop (S e) (c0 :: p')).
      rewrite <- app_assoc. symmetry.
      exact (take_drop_middle (c0 :: p') e SLASH Hsl).
  - left. by destruct (c0 =? SLASH).
Qed.

Lemma wf_parent (fs : gmap jsstring Node) (k : jsstring) :
  fs_wf fs -> is_Some (fs !! k) ->
  is_fs_root (path_dirname k) = true \/ is_dir fs (path_dirname k).
Proof.
  intros Hwf Hk. destruct (path_dirname_above k) as [Hr|[Hne Hpre]]; [by left|].
  right. by apply (wf_above fs k).
Qed.

Lemma path_prefixes_dirs (fs : gmap jsstring Node) (fuel : nat) (p : jsstring)
    (acc : list jsstring) :
  fs_wf fs ->
  is_fs_root p = true \/ is_dir fs p ->
  Forall (is_dir fs) acc ->
  Forall (is_dir fs) (path_prefixes fuel p acc).
Proof.
  intros Hwf. revert p acc. induction fuel as [|n IH]; intros p acc Hp Hacc; [done|].
  simpl. destruct (is_fs_root p) eqn:Hroot; [done|].
  destruct Hp as [Hp|Hp]; [congruence|].
  destruct (bool_decide (p = [])); [done|]. simpl.
  apply IH.
  - apply wf_parent; [done|]. by exists Dir.
  - by constructor.
Qed.

Lemma fs_makeParts_present (fs : gmap jsstring Node) (parts : list jsstring) :
  Forall (is_dir fs) parts -> fs_makeParts fs parts = inr fs.
Proof.
  induction 1 as [|a parts Ha _ IH]; [done|]. simpl.
  unfold is_dir in Ha. by rewrite Ha.
Qed.

(** In a well-formed tree, the tree above an existing entry is there
    already, and [makeTree] on it changes nothing. *)
Lemma fs_makeTree_above (fs : gmap jsstring Node) (k : jsstring) :
  fs_wf fs -> is_Some (fs !! k) -> fs_makeTree fs (path_dirname k) = inr fs.
Proof.
  intros Hwf Hk. unfold fs_makeTree. apply fs_makeParts_present.
  apply path_prefixes_dirs; [done|by apply wf_parent|constructor].
Qed.

Lemma run_trace_extends (E : Env) {A : Type} (p : Prog A) (w : World) :
  exists calls, trace (run E p w).2 = trace w ++ calls.
Proof.
  revert w. induction p as [a|e|c k IH]; intros w; simpl.
  - exists []. by rewrite app_nil_r.
  - exists []. by rewrite app_nil_r.
  - pose proof (handle_trace E c w) as Ht.
    destruct (handle E c w) as [[e|x] w1]; simpl in Ht.
    + by exists [c].
    + destruct (IH x w1) as [calls Hc]. exists (c :: calls).
      rewrite Hc, Ht. by rewrite <- app_assoc.
Qed.

(** C2: when the descriptor is in the index and its reference path is a
    file of a well-formed tree, [updateReferenceImage] makes the directory
    tree, finds the file and removes it, and only then starts optipng with
    that path as output: the calls are [makeTree], [isFile], [remove],
    [execFile], in this order, and the file is gone when optipng starts. *)
Theorem reference_deleted_before_recompression
    (E : Env) (app : App) (testData test : Test) (w : World) (size : Z) :
  Index_find (_failedTests app) testData = Some test ->
  fs_wf (files w) ->
  files w !! referencePath test = Some (File size) ->
  exists w1 later,
    trace (run E (updateReferenceImage E app testData) w).2
    = trace w
      ++ [FsMakeTree (path_dirname (referencePath test));
          FsIsFile (referencePath test);
          FsRemove (referencePath test);
          ExecFile (optipng E) [u16 "-out"; referencePath test; currentPath test]]
      ++ later
    /\ run E (call (FsMakeTree (path_dirname (referencePath test))) ;;;
              _deleteRefImg (referencePath test)) w = (inr tt, w1)
    /\ trace w1 = trace w ++ [FsMakeTree (path_dirname (referencePath test));
                              FsIsFile (referencePath test);
                              FsRemove (referencePath test)]
    /\ files w1 = delete (referencePath test) (files w)
    /\ files w1 !! referencePath test = None.
Proof.
  intros Hfind Hwf Hfile.
  assert (Hprefix :
            run E (call (FsMakeTree (path_dirname (referencePath test))) ;;;
                   _deleteRefImg (referencePath test)) w
            = (inr tt,
               set_files (delete (referencePath test) (files w))
                 (record_call (FsRemove (referencePath test))
                    (record_call (FsIsFile (referencePath test))
                       (record_call (FsMakeTree (path_dirname (referencePath test))) w))))).
  { rewrite run_then, run_call. simpl.
    rewrite fs_makeTree_above by (done || by eexists). simpl.
    unfold fs_isFile. rewrite Hfile. simpl.
    unfold fs_remove. rewrite Hfile. simpl.
    destruct w; reflexivity. }
  unfold updateReferenceImage. rewrite Hfind.
  rewrite run_then_assoc, Hprefix. cbv beta iota.
  rewrite run_then. unfold _compressAndCopyRefImg, call at 1. cbn [run].
  set (w1 := set_files _ _).
  pose proof (handle_trace E
                (ExecFile (optipng E) [u16 "-out"; referencePath test; currentPath test])
                w1) as Ht.
  assert (Ht1 : trace w1 = trace w ++ [FsMakeTree (path_dirname (referencePath test));
                                       FsIsFile (referencePath test);
                                       FsRemove (referencePath test)]).
  { subst w1. simpl. by rewrite <- !app_assoc. }
  assert (Hgone : files w1 !! referencePath test = None).
  { subst w1. simpl. apply lookup_delete_eq. }
  destruct (handle E _ w1) as [[e|[]] w2] eqn:Hh; simpl in Ht.
  - exists w1, []. simpl. rewrite Ht.
    repeat split; try done; by rewrite <- !app_assoc.
  - match goal with
    | |- context [run E ?p w2] => destruct (run_trace_extends E p w2) as [calls Hc]
    end.
    exists w1, calls. rewrite Hc, Ht.
    repeat split; try done; by rewrite <- !app_assoc.
Qed.

Lemma reference_deleted_before_recompression_witness :
  exists w1 later,
    trace (run fixtureEnv
               (updateReferenceImage fixtureEnv fixture_app_failed (fixture_test 2))
               (fixture_world [])).2
    = trace (fixture_world [])
      ++ [FsMakeTree (path_dirname (referencePath (fixture_test 1)));
          FsIsFile (referencePath (fixture_test 1));
          FsRemove (referencePath (fixture_test 1));
          ExecFile (optipng fixtureEnv)
            [u16 "-out"; referencePath (fixture_test 1); currentPath (fixture_test 1)]]
      ++ later
    /\ run fixtureEnv
           (call (FsMakeTree (path_dirname (referencePath (fixture_test 1)))) ;;;
            _deleteRefImg (referencePath (fixture_test 1))) (fixture_world [])
       = (inr tt, w1)
    /\ trace w1 = trace (fixture_world [])
                  ++ [FsMakeTree (path_dirname (referencePath (fixture_test 1)));
                      FsIsFile (referencePath (fixture_test 1));
                      FsRemove (referencePath (fixture_test 1))]
    /\ files w1 = delete (referencePath (fixture_test 1)) (files (fixture_world []))
    /\ files w1 !! referencePath (fixture_test 1) = None.
Proof.
  apply (reference_deleted_before_recompression fixtureEnv fixture_app_failed
           (fixture_test 2) (fixture_test 1) (fixture_world []) 20000).
  - reflexivity.
  - apply (bool_decide_unpack _). vm_compute. exact I.
  - vm_compute. reflexivity.
Defined.

(** ** Interleaved chains *)

Section Invariants.
Context (E : Env).

(** A chain that keeps an invariant at every call, and whose calls all
    succeed under it, runs to its end with the invariant. *)
Lemma run_invariant {B : Type} (I : Prog B -> World -> Prop) :
  (forall e w, ~ I (Throw e) w) ->
  (forall c k w, I (Do c k) w ->
                 exists x w', handle E c w = (inr x, w') /\ I (k x) w') ->
  forall p w, I p w -> exists b w', run E p w = (inr b, w') /\ I (Ret b) w'.
Proof.
  intros Hthrow Hstep p. induction p as [b|e|c k IH]; intros w HI.
  - by exists b, w.
  - by destruct (Hthrow e w).
  - destruct (Hstep c k w HI) as (x & w' & Hh & HI').
    simpl. rewrite Hh. by apply IH.
Qed.

(** The same for two chains under [q.all], whatever the schedule. *)
Lemma all2_invariant {A B : Type} (I : Prog A -> Prog B -> World -> Prop) :
  (forall e p2 w, ~ I (Throw e) p2 w) ->
  (forall p1 e w, ~ I p1 (Throw e) w) ->
  (forall c k p2 w, I (Do c k) p2 w ->
                    exists x w', handle E c w = (inr x, w') /\ I (k x) p2 w') ->
  (forall p1 c k w, I p1 (Do c k) w ->
                    exists x w', handle E c w = (inr x, w') /\ I p1 (k x) w') ->
  (forall p1 p2 w s, I p1 p2 w -> I p1 p2 (set_schedule s w)) ->
  forall sched p1 p2 w,
    I p1 p2 w ->
    exists a b w', all2 E sched p1 p2 w = (inr (a, b), w') /\ I (Ret a) (Ret b) w'.
Proof.
  intros Hthrow1 Hthrow2 Hstep1 Hstep2 Hsched.
  assert (Hleft : forall p1 p2 w, I p1 p2 w ->
            exists a w', run E p1 w = (inr a, w') /\ I (Ret a) p2 w').
  { intros p1 p2 w HI.
    apply (run_invariant (fun p w => I p p2 w)); [intros; apply Hthrow1| |done].
    intros c k w0 H0. by apply Hstep1. }
  assert (Hright : forall p1 p2 w, I p1 p2 w ->
            exists b w', run E p2 w = (inr b, w') /\ I p1 (Ret b) w').
  { intros p1 p2 w HI.
    apply (run_invariant (fun p w => I p1 p w)); [intros; apply Hthrow2| |done].
    intros c k w0 H0. by apply Hstep2. }
  induction sched as [|side s IH]; intros p1 p2 w HI.
  - simpl. destruct (Hleft p1 p2 _ (Hsched _ _ _ [] HI)) as (a & w1 & Hr1 & HI1).
    rewrite Hr1. destruct (Hright _ _ _ HI1) as (b & w2 & Hr2 & HI2).
    rewrite Hr2. simpl. by exists a, b, w2.
  - destruct side; simpl.
    + destruct p1 as [a|e|c k].
      * destruct (Hright _ _ _ (Hsched _ _ _ s HI)) as (b & w2 & Hr2 & HI2).
        rewrite Hr2. simpl. by exists a, b, w2.
      * by destruct (Hthrow1 e p2 w).
      * destruct (Hstep1 c k p2 w HI) as (x & w' & Hh & HI'). rewrite Hh.
        by apply IH.
    + destruct p2 as [b|e|c k].
      * destruct (Hleft _ _ _ (Hsched _ _ _ s HI)) as (a & w1 & Hr1 & HI1).
        rewrite Hr1. simpl. by exists a, b, w1.
      * by destruct (Hthrow2 p1 e w).
      * destruct (Hstep2 p1 c k w HI) as (x & w' & Hh & HI'). rewrite Hh.
        by apply IH.
Qed.
End Invariants.

(** ** Removing and making directories *)

Lemma removed_lookup_under (fs : gmap jsstring Node) (p k : jsstring) :
  under p k -> filter (fun kv => ~ under p kv.1) fs !! k = None.
Proof.
  intros Hu. apply map_lookup_filter_None. right. intros x _ Hn. by apply Hn.
Qed.

Lemma removed_lookup_other (fs : gmap jsstring Node) (p k : jsstring) :
  ~ under p k -> filter (fun kv => ~ under p kv.1) fs !! k = fs !! k.
Proof.
  intros Hu. destruct (fs !! k) as [x|] eqn:Hk.
  - by apply map_lookup_filter_Some.
  - apply map_lookup_filter_None. by left.
Qed.

Lemma removed_nothing_below (fs : gmap jsstring Node) (p : jsstring) :
  nothing_below (filter (fun kv => ~ under p kv.1) fs) p.
Proof.
  intros k x Hk. apply map_lookup_filter_Some in Hk as [_ Hn]. simpl in Hn.
  intros Hpre. apply Hn. by right.
Qed.

Lemma filter_nothing_below (fs : gmap jsstring Node) (q p : jsstring) :
  nothing_below fs p -> nothing_below (filter (fun kv => ~ under q kv.1) fs) p.
Proof.
  intros Hnb k x Hk. apply map_lookup_filter_Some in Hk as [Hk _]. by apply (Hnb k x).
Qed.

Lemma under_self_parent (p : jsstring) :
  (path_dirname p ++ [SLASH]) `prefix_of` p -> ~ under p (path_dirname p).
Proof.
  intros [t Ht] [Heq|[t' Ht']].
  - rewrite Heq in Ht. apply (f_equal length) in Ht.
    rewrite !length_app in Ht. simpl in Ht. lia.
  - rewrite Ht' in Ht. apply (f_equal length) in Ht.
    rewrite !length_app in Ht. simpl in Ht. lia.
Qed.

Lemma under_other_parent (q p : jsstring) :
  (path_dirname p ++ [SLASH]) `prefix_of` p -> ~ under q p -> ~ under q (path_dirname p).
Proof.
  intros Hpre Hn [Heq|Hq]; apply Hn; right.
  - by rewrite <- Heq.
  - etransitivity; [exact Hq|]. etransitivity; [|exact Hpre]. by apply prefix_app_r.
Qed.

Lemma parent_ok_removed (fs : gmap jsstring Node) (q p : jsstring) :
  parent_ok fs p = true -> q = p \/ ~ under q p ->
  parent_ok (filter (fun kv => ~ under q kv.1) fs) p = true.
Proof.
  unfold parent_ok. intros Hok Hq.
  destruct (is_fs_root (path_dirname p)) eqn:Hroot; [done|]. simpl in *.
  apply bool_decide_eq_true in Hok. apply bool_decide_eq_true.
  destruct (path_dirname_above p) as [Hr|[_ Hpre]]; [congruence|].
  rewrite removed_lookup_other; [done|].
  destruct Hq as [->|Hq]; [by apply under_self_parent|by apply under_other_parent].
Qed.

Lemma parent_ok_made (fs : gmap jsstring Node) (q p : jsstring) :
  parent_ok fs p = true -> parent_ok (<[q := Dir]> fs) p = true.
Proof.
  unfold parent_ok. intros Hok.
  destruct (is_fs_root (path_dirname p)); [done|]. simpl in *.
  apply bool_decide_eq_true in Hok. apply bool_decide_eq_true.
  destruct (decide (q = path_dirname p)) as [->|Hne].
  - apply lookup_insert_eq.
  - by rewrite lookup_insert_ne.
Qed.

Lemma made_nothing_below (fs : gmap jsstring Node) (q p : jsstring) :
  nothing_below fs p -> ~ (p ++ [SLASH]) `prefix_of` q ->
  nothing_below (<[q := Dir]> fs) p.
Proof. intros Hnb Hq. by apply map_Forall_insert_2. Qed.

Lemma not_below_self (p : jsstring) : ~ (p ++ [SLASH]) `prefix_of` p.
Proof.
  intros [t Ht]. apply (f_equal length) in Ht. rewrite !length_app in Ht.
  simpl in Ht. lia.
Qed.

Lemma wf_missing_nothing_below (fs : gmap jsstring Node) (p : jsstring) :
  fs_wf fs -> p <> [] -> fs !! p = None -> nothing_below fs p.
Proof.
  intros Hwf Hp Hnone k x Hk Hpre.
  assert (is_dir fs p) as Hd by (apply (wf_above fs k); [done|by eexists|done|done]).
  unfold is_dir in Hd. congruence.
Qed.

Lemma apart_sym (a b : jsstring) : apart a b -> apart b a.
Proof. unfold apart. tauto. Qed.

Lemma removal_frame_sym (a b : jsstring) (fs : gmap jsstring Node) :
  removal_frame a b fs -> removal_frame b a fs.
Proof. unfold removal_frame. tauto. Qed.

Lemma creation_frame_sym (a b : jsstring) (fs : gmap jsstring Node) :
  creation_frame a b fs -> creation_frame b a fs.
Proof. unfold creation_frame. tauto. Qed.

Lemma removal_state_kept (a b : jsstring) (chain : Prog unit) (fs : gmap jsstring Node) :
  ~ under a b ->
  removal_state b chain fs ->
  removal_state b chain (filter (fun kv => ~ under a kv.1) fs).
Proof.
  intros Hn. destruct chain as [u|e|c k]; simpl; [|done|].
  - by rewrite removed_lookup_other.
  - destruct c; try done. by rewrite removed_lookup_other.
Qed.

Lemma removal_step (E : Env) (a b : jsstring) (c : Call) (k : ans c -> Prog unit)
    (other : Prog unit) (w : World) :
  apart a b ->
  removal_frame a b (files w) ->
  removal_state a (Do c k) (files w) ->
  removal_state b other (files w) ->
  exists x w',
    handle E c w = (inr x, w')
    /\ removal_frame a b (files w')
    /\ removal_state a (k x) (files w')
    /\ removal_state b other (files w').
Proof.
  intros (Ha & Hb & Hab & Hba) (Hpa & Hpb & Hna & Hnb) Hst Hother.
  destruct c; simpl in Hst; try done.
  - destruct Hst as [-> Hk].
    exists (fs_exists (files w) a), (record_call (FsExists a) w).
    split; [done|]. split; [done|]. split; [|done].
    rewrite Hk. simpl. unfold fs_exists. case_bool_decide as Hex.
    + simpl. split; [done|]. split; [done|]. by intros [].
    + simpl. by apply eq_None_not_Some.
  - destruct Hst as (-> & [x Hx] & Hk).
    exists tt, (set_files (filter (fun kv => ~ under a kv.1) (files w))
                          (record_call (FsRemoveTree a) w)).
    split.
    { simpl. unfold fs_removeTree. by rewrite Hx. }
    simpl. split; [|split].
    + split; [apply parent_ok_removed; auto|].
      split; [apply parent_ok_removed; auto|].
      split; [intros _; apply removed_nothing_below|].
      rewrite removed_lookup_other by done. intros Hnone.
      by apply filter_nothing_below, Hnb.
    + rewrite Hk. simpl. apply removed_lookup_under. by left.
    + by apply removal_state_kept.
Qed.

Lemma creation_state_kept (a b : jsstring) (chain : Prog unit) (fs : gmap jsstring Node) :
  a <> b ->
  creation_state b chain fs ->
  creation_state b chain (<[a := Dir]> fs).
Proof.
  intros Hn. destruct chain as [u|e|c k]; simpl; [|done|].
  - unfold is_dir. by rewrite lookup_insert_ne.
  - destruct c; try done. by rewrite lookup_insert_ne.
Qed.

Lemma creation_step (E : Env) (a b : jsstring) (c : Call) (k : ans c -> Prog unit)
    (other : Prog unit) (w : World) :
  apart a b ->
  creation_frame a b (files w) ->
  creation_state a (Do c k) (files w) ->
  creation_state b other (files w) ->
  exists x w',
    handle E c w = (inr x, w')
    /\ creation_frame a b (files w')
    /\ creation_state a (k x) (files w')
    /\ creation_state b other (files w').
Proof.
  intros (Ha & Hb & Hab & Hba) (Hpa & Hpb & Hna & Hnb) Hst Hother.
  destruct c; simpl in Hst; try done.
  destruct Hst as (-> & Hnone & Hk).
  exists tt, (set_files (<[a := Dir]> (files w)) (record_call (FsMakeDirectory a) w)).
  assert (a <> b) as Hne by (intros ->; apply Hab; by left).
  split.
  { simpl. unfold fs_makeDirectory. by rewrite Hnone, Hpa. }
  simpl. split; [|split].
  - split; [by apply parent_ok_made|]. split; [by apply parent_ok_made|].
    split; apply made_nothing_below; try done.
    + apply not_below_self.
    + intros Hpre. apply Hba. by right.
  - rewrite Hk. simpl. apply lookup_insert_eq.
  - by apply creation_state_kept.
Qed.

(** C7: when the two directories are apart and their parents exist in a
    well-formed tree, [_recreateTmpDirs] succeeds under every interleaving
    of its calls, and afterwards the current directory and the diff
    directory both exist and are empty, whether or not they existed, with
    or without files, before. *)
Theorem recreate_leaves_empty_directories (E : Env) (app : App) (w : World) :
  fs_wf (files w) ->
  apart (currentDir app) (diffDir app) ->
  parent_ok (files w) (currentDir app) = true ->
  parent_ok (files w) (diffDir app) = true ->
  exists w',
    _recreateTmpDirs E app w = (inr tt, w')
    /\ is_empty_dir (files w') (currentDir app)
    /\ is_empty_dir (files w') (diffDir app).
Proof.
  intros Hwf Hapart Hpc Hpd.
  pose proof Hapart as (Hc & Hd & Hcd & Hdc).
  unfold _recreateTmpDirs, q_all2.
  destruct (all2_invariant E
              (fun p1 p2 w => removal_frame (currentDir app) (diffDir app) (files w)
                              /\ removal_state (currentDir app) p1 (files w)
                              /\ removal_state (diffDir app) p2 (files w)))
    with (sched := schedule w) (p1 := removeTreeIfExists (currentDir app))
         (p2 := removeTreeIfExists (diffDir app)) (w := w)
    as ([] & [] & w1 & Hrun1 & Hframe1 & Hgone_c & Hgone_d).
  - intros e p2 w0 (_ & H & _). exact H.
  - intros p1 e w0 (_ & _ & H). exact H.
  - intros c k p2 w0 (Hf & H1 & H2).
    destruct (removal_step E _ _ c k p2 w0 Hapart Hf H1 H2) as (x & w' & ? & ? & ? & ?).
    by exists x, w'.
  - intros p1 c k w0 (Hf & H1 & H2).
    destruct (removal_step E _ _ c k p1 w0 (apart_sym _ _ Hapart)
                (removal_frame_sym _ _ _ Hf) H2 H1) as (x & w' & ? & ? & ? & ?).
    exists x, w'. split; [done|]. split; [by apply removal_frame_sym|done].
  - intros p1 p2 w0 s H. exact H.
  - split; [|split].
    + split; [done|]. split; [done|].
      split; intros Hnone; by apply wf_missing_nothing_below.
    + simpl. split; [done|]. by intros [].
    + simpl. split; [done|]. by intros [].
  - rewrite Hrun1. simpl in Hgone_c, Hgone_d.
    destruct Hframe1 as (Hpc1 & Hpd1 & Hnc1 & Hnd1).
    destruct (all2_invariant E
                (fun p1 p2 w => creation_frame (currentDir app) (diffDir app) (files w)
                                /\ creation_state (currentDir app) p1 (files w)
                                /\ creation_state (diffDir app) p2 (files w)))
      with (sched := schedule w1) (p1 := call (FsMakeDirectory (currentDir app)))
           (p2 := call (FsMakeDirectory (diffDir app))) (w := w1)
      as ([] & [] & w2 & Hrun2 & Hframe2 & Hdir_c & Hdir_d).
    + intros e p2 w0 (_ & H & _). exact H.
    + intros p1 e w0 (_ & _ & H). exact H.
    + intros c k p2 w0 (Hf & H1 & H2).
      destruct (creation_step E _ _ c k p2 w0 Hapart Hf H1 H2) as (x & w' & ? & ? & ? & ?).
      by exists x, w'.
    + intros p1 c k w0 (Hf & H1 & H2).
      destruct (creation_step E _ _ c k p1 w0 (apart_sym _ _ Hapart)
                  (creation_frame_sym _ _ _ Hf) H2 H1) as (x & w' & ? & ? & ? & ?).
      exists x, w'. split; [done|]. split; [by apply creation_frame_sym|done].
    + intros p1 p2 w0 s H. exact H.
    + split; [|split].
      * split; [done|]. split; [done|]. split; auto.
      * simpl. split; [done|]. split; [done|]. by intros [].
      * simpl. split; [done|]. split; [done|]. by intros [].
    + match goal with
      | |- context [all2 E ?s ?p ?q ?w0] =>
          change (all2 E s p q w0) with (@all2 E unit unit s p q w0)
      end.
      rewrite Hrun2. exists w2. simpl in Hdir_c, Hdir_d.
      destruct Hframe2 as (_ & _ & Hnc2 & Hnd2).
      split; [done|]. by split.
Qed.

Lemma recreate_leaves_empty_directories_witness :
  files (fixture_world [false; true; true; false]) !! u16 "/tmp/curr/header/plain.png"
    = Some (File 30000)
  /\ files (fixture_world [false; true; true; false]) !! diffDir fixture_app = None
  /\ exists w',
       fixture_recreated = (inr tt, w')
       /\ is_empty_dir (files w') (currentDir fixture_app)
       /\ is_empty_dir (files w') (diffDir fixture_app).
Proof.
  split; [vm_compute; reflexivity|]. split; [vm_compute; reflexivity|].
  apply (recreate_leaves_empty_directories fixtureEnv fixture_app
           (fixture_world [false; true; true; false])).
  - apply (bool_decide_unpack _). vm_compute. exact I.
  - apply (bool_decide_unpack _). vm_compute. exact I.
  - vm_compute. reflexivity.
  - vm_compute. reflexivity.
Defined.

(** * Further properties of [lib/app.js] *)

(** ** Calls and what they keep *)

Lemma calls_in_then {A B : Type} (P : Call -> Prop) (p : Prog A) (f : A -> Prog B) :
  calls_in P p -> (forall a, calls_in P (f a)) -> calls_in P (then_ p f).
Proof.
  intros Hp Hf. induction p as [a|e|c k IH]; simpl; [apply Hf|done|].
  destruct Hp as [Hc Hk]. split; [done|]. intros x. by apply IH.
Qed.

Lemma calls_in_call (P : Call -> Prop) (c : Call) : P c -> calls_in P (call c).
Proof. intros Hc. simpl. by split. Qed.

Lemma calls_in_lift {A : Type} (P : Call -> Prop) (r : Error + A) : calls_in P (lift r).
Proof. by destruct r. Qed.

Lemma calls_in_impl {A : Type} (P Q : Call -> Prop) (p : Prog A) :
  (forall c, P c -> Q c) -> calls_in P p -> calls_in Q p.
Proof.
  intros HPQ. induction p as [a|e|c k IH]; simpl; [done|done|].
  intros [Hc Hk]. split; [by apply HPQ|]. intros x. by apply IH.
Qed.

(** A property of the world that every call of the chain keeps holds after
    the chain. *)
Lemma run_keeps (E : Env) {A : Type} (P : Call -> Prop) (Q : World -> Prop) (p : Prog A) :
  (forall c w, P c -> Q w -> Q (handle E c w).2) ->
  calls_in P p -> forall w, Q w -> Q (run E p w).2.
Proof.
  intros Hstep. induction p as [a|e|c k IH]; intros Hp w Hw; simpl; [done|done|].
  destruct Hp as [Hc Hk]. specialize (Hstep c w Hc Hw).
  destruct (handle E c w) as [[e|x] w']; [done|]. by apply IH.
Qed.

Lemma settle_left_world {A B : Type} (a : Error + A) (r : (Error + B) * World) :
  (settle_left a r).2 = r.2.
Proof. by destruct a, r as [[?|?] ?]. Qed.

Lemma settle_right_world {A B : Type} (b : Error + B) (r : (Error + A) * World) :
  (settle_right b r).2 = r.2.
Proof. by destruct b, r as [[?|?] ?]. Qed.

(** The same for two chains under [q.all], whatever the schedule and
    whether or not a call fails. *)
Lemma all2_keeps (E : Env) {A B : Type} (P : Call -> Prop) (Q : World -> Prop) :
  (forall c w, P c -> Q w -> Q (handle E c w).2) ->
  (forall s w, Q w -> Q (set_schedule s w)) ->
  forall sched (p1 : Prog A) (p2 : Prog B) w,
    calls_in P p1 -> calls_in P p2 -> Q w -> Q (all2 E sched p1 p2 w).2.
Proof.
  intros Hstep Hsched. induction sched as [|side s IH]; intros p1 p2 w H1 H2 Hw.
  - simpl. pose proof (run_keeps E P Q p1 Hstep H1 _ (Hsched [] w Hw)) as Hw1.
    destruct (run E p1 (set_schedule [] w)) as [a w1]. simpl in Hw1.
    rewrite settle_left_world. by apply (run_keeps E P Q p2).
  - destruct side; cbn [all2].
    + destruct p1 as [a|e|c k].
      * rewrite settle_left_world. apply (run_keeps E P Q p2); auto.
      * rewrite settle_left_world. apply (run_keeps E P Q p2); auto.
      * destruct H1 as [Hc Hk]. pose proof (Hstep c w Hc Hw) as Hw'.
        destruct (handle E c w) as [[e|x] w']; simpl in Hw'.
        -- rewrite settle_left_world. apply (run_keeps E P Q p2); auto.
        -- by apply IH.
    + destruct p2 as [b|e|c k].
      * rewrite settle_right_world. apply (run_keeps E P Q p1); auto.
      * rewrite settle_right_world. apply (run_keeps E P Q p1); auto.
      * destruct H2 as [Hc Hk]. pose proof (Hstep c w Hc Hw) as Hw'.
        destruct (handle E c w) as [[e|x] w']; simpl in Hw'.
        -- rewrite settle_right_world. apply (run_keeps E P Q p1); auto.
        -- by apply IH.
Qed.

(** The calls recorded by a chain are calls of the chain. *)
Lemma run_trace_calls (E : Env) {A : Type} (P : Call -> Prop) (p : Prog A) (w : World) :
  calls_in P p ->
  exists calls, trace (run E p w).2 = trace w ++ calls /\ Forall P calls.
Proof.
  intros Hp.
  apply (run_keeps E P (fun w' => exists calls, trace w' = trace w ++ calls /\ Forall P calls) p);
    [|done|].
  - intros c w0 Hc (calls & Ht & Hall). exists (calls ++ [c]).
    rewrite handle_trace, Ht. split; [by rewrite <- app_assoc|].
    apply Forall_app. split; [done|]. by constructor.
  - exists []. split; [by rewrite app_nil_r|constructor].
Qed.

Lemma all2_trace_calls (E : Env) {A B : Type} (P : Call -> Prop)
    (sched : list bool) (p1 : Prog A) (p2 : Prog B) (w : World) :
  calls_in P p1 -> calls_in P p2 ->
  exists calls, trace (all2 E sched p1 p2 w).2 = trace w ++ calls /\ Forall P calls.
Proof.
  intros H1 H2.
  apply (all2_keeps E P (fun w' => exists calls, trace w' = trace w ++ calls /\ Forall P calls));
    [| |done|done|].
  - intros c w0 Hc (calls & Ht & Hall). exists (calls ++ [c]).
    rewrite handle_trace, Ht. split; [by rewrite <- app_assoc|].
    apply Forall_app. split; [done|]. by constructor.
  - intros s w0 H. exact H.
  - exists []. split; [by rewrite app_nil_r|constructor].
Qed.

(** ** The temporary directories *)


Lemma removeTreeIfExists_calls (app : App) (p : jsstring) :
  p = currentDir app \/ p = diffDir app ->
  calls_in (removal_call app) (removeTreeIfExists p).
Proof.
  intros Hp. simpl. split; [done|]. intros []; simpl; [|done]. by split.
Qed.

Lemma makeDirectory_calls (app : App) (p : jsstring) :
  p = currentDir app \/ p = diffDir app ->
  calls_in (creation_call app) (call (FsMakeDirectory p)).
Proof. intros Hp. by apply calls_in_call. Qed.

(** A call on one of the two directories leaves alone what is outside
    both. *)
Lemma workspace_call_outside (E : Env) (app : App) (fs0 : gmap jsstring Node)
    (c : Call) (w : World) :
  workspace_call app c ->
  (forall k, ~ under (currentDir app) k -> ~ under (diffDir app) k ->
             files w !! k = fs0 !! k) ->
  forall k, ~ under (currentDir app) k -> ~ under (diffDir app) k ->
            files (handle E c w).2 !! k = fs0 !! k.
Proof.
  intros Hc Hw k Hk1 Hk2. rewrite <- (Hw k Hk1 Hk2).
  assert (Hp : forall p, p = currentDir app \/ p = diffDir app -> ~ under p k).
  { by intros p [->| ->]. }
  destruct c; destruct Hc as [Hc|Hc]; simpl in Hc; try contradiction; simpl.
  - reflexivity.
  - unfold fs_removeTree.
    destruct (files w !! p); simpl; [|done]. apply removed_lookup_other. by apply Hp.
  - unfold fs_makeDirectory.
    destruct (files w !! p); simpl; [done|].
    destruct (parent_ok (files w) p); simpl; [|done].
    apply lookup_insert_ne. intros ->. apply (Hp k Hc). by left.
Qed.

(** X2: whatever the schedule, and whether it resolves or rejects,
    [_recreateTmpDirs] never touches an entry that is outside the current
    directory and the diff directory. *)
Theorem recreate_confined (E : Env) (app : App) (w : World) (k : jsstring) :
  ~ under (currentDir app) k -> ~ under (diffDir app) k ->
  files (_recreateTmpDirs E app w).2 !! k = files w !! k.
Proof.
  intros Hk1 Hk2. unfold _recreateTmpDirs, q_all2.
  set (Q := fun w' : World =>
              forall k, ~ under (currentDir app) k -> ~ under (diffDir app) k ->
                        files w' !! k = files w !! k).
  assert (Hstep : forall c w0, workspace_call app c -> Q w0 -> Q (handle E c w0).2).
  { intros c w0 Hc H0 k0 Hk01 Hk02.
    by apply (workspace_call_outside E app (files w) c w0). }
  assert (Hsched : forall s w0, Q w0 -> Q (set_schedule s w0)) by (intros s w0 H0; exact H0).
  assert (Q w) as H0 by (intros ? ? ?; reflexivity).
  assert (Hrm : forall p, p = currentDir app \/ p = diffDir app ->
                          calls_in (workspace_call app) (removeTreeIfExists p)).
  { intros p Hp. eapply calls_in_impl; [|by apply removeTreeIfExists_calls]. by left. }
  assert (Hmk : forall p, p = currentDir app \/ p = diffDir app ->
                          calls_in (workspace_call app) (call (FsMakeDirectory p))).
  { intros p Hp. eapply calls_in_impl; [|by apply makeDirectory_calls]. by right. }
  pose proof (all2_keeps E (workspace_call app) Q Hstep Hsched (schedule w)
                (removeTreeIfExists (currentDir app)) (removeTreeIfExists (diffDir app)) w
                (Hrm _ (or_introl eq_refl)) (Hrm _ (or_intror eq_refl)) H0) as H1.
  destruct (all2 E (schedule w) (removeTreeIfExists (currentDir app))
              (removeTreeIfExists (diffDir app)) w) as [[e|x] w1]; simpl in H1.
  - by apply H1.
  - pose proof (all2_keeps E (workspace_call app) Q Hstep Hsched (schedule w1)
                  (call (FsMakeDirectory (currentDir app)))
                  (call (FsMakeDirectory (diffDir app))) w1
                  (Hmk _ (or_introl eq_refl)) (Hmk _ (or_intror eq_refl)) H1) as H2.
    match goal with
    | |- context [all2 E ?s ?p ?q ?w0] =>
        change (all2 E s p q w0) with (@all2 E unit unit s p q w0)
    end.
    destruct (all2 E (schedule w1) _ _ w1) as [[e|y] w2]; simpl in H2; simpl;
      by apply H2.
Qed.

Lemma recreate_confined_witness :
  files (_recreateTmpDirs fixtureEnv fixture_app
           (fixture_world [false; true; true; false])).2
    !! u16 "/shots/chrome/header/plain.png"
  = files (fixture_world [false; true; true; false])
      !! u16 "/shots/chrome/header/plain.png".
Proof.
  apply (recreate_confined fixtureEnv fixture_app
           (fixture_world [false; true; true; false])
           (u16 "/shots/chrome/header/plain.png")).
  - apply (bool_decide_unpack _). vm_compute. exact I.
  - apply (bool_decide_unpack _). vm_compute. exact I.
Defined.

(** X3: the calls of [_recreateTmpDirs] are, first, [exists] and
    [removeTree] on the two directories, then [makeDirectory] on them: no
    directory is made before both removals have settled, and nothing else is
    called. *)
Theorem recreate_removes_before_making (E : Env) (app : App) (w : World) :
  exists removals creations,
    trace (_recreateTmpDirs E app w).2 = trace w ++ removals ++ creations
    /\ Forall (removal_call app) removals
    /\ Forall (creation_call app) creations.
Proof.
  unfold _recreateTmpDirs, q_all2.
  destruct (all2_trace_calls E (removal_call app) (schedule w)
              (removeTreeIfExists (currentDir app)) (removeTreeIfExists (diffDir app)) w)
    as (removals & Ht1 & Hall1); [apply removeTreeIfExists_calls; auto..|].
  destruct (all2 E (schedule w) (removeTreeIfExists (currentDir app))
              (removeTreeIfExists (diffDir app)) w) as [[e|x] w1]; simpl in Ht1.
  - exists removals, []. simpl. rewrite app_nil_r. auto.
  - destruct (all2_trace_calls E (creation_call app) (schedule w1)
                (call (FsMakeDirectory (currentDir app)))
                (call (FsMakeDirectory (diffDir app))) w1)
      as (creations & Ht2 & Hall2); [apply makeDirectory_calls; auto..|].
    match goal with
    | |- context [all2 E ?s ?p ?q ?w0] =>
        change (all2 E s p q w0) with (@all2 E unit unit s p q w0)
    end.
    exists removals, creations.
    destruct (all2 E (schedule w1) _ _ w1) as [[e|y] w2]; simpl in Ht2; simpl;
      rewrite Ht2, Ht1, <- app_assoc; auto.
Qed.


(** ** [initialize] *)

(** The two directories apart and their parents there: both groups of
    calls succeed under every schedule, and leave the directories empty. *)
Lemma recreate_succeeds (E : Env) (app : App) (w : World) :
  fs_wf (files w) ->
  apart (currentDir app) (diffDir app) ->
  parent_ok (files w) (currentDir app) = true ->
  parent_ok (files w) (diffDir app) = true ->
  exists w',
    _recreateTmpDirs E app w = (inr tt, w')
    /\ is_empty_dir (files w') (currentDir app)
    /\ is_empty_dir (files w') (diffDir app).
Proof.
  intros Hwf Hapart Hpc Hpd.
  pose proof Hapart as (Hc & Hd & Hcd & Hdc).
  unfold _recreateTmpDirs, q_all2.
  destruct (all2_invariant E
              (fun p1 p2 w => removal_frame (currentDir app) (diffDir app) (files w)
                              /\ removal_state (currentDir app) p1 (files w)
                              /\ removal_state (diffDir app) p2 (files w)))
    with (sched := schedule w) (p1 := removeTreeIfExists (currentDir app))
         (p2 := removeTreeIfExists (diffDir app)) (w := w)
    as ([] & [] & w1 & Hrun1 & Hframe1 & Hgone_c & Hgone_d).
  - intros e p2 w0 (_ & H & _). exact H.
  - intros p1 e w0 (_ & _ & H). exact H.
  - intros c k p2 w0 (Hf & H1 & H2).
    destruct (removal_step E _ _ c k p2 w0 Hapart Hf H1 H2) as (x & w' & ? & ? & ? & ?).
    by exists x, w'.
  - intros p1 c k w0 (Hf & H1 & H2).
    destruct (removal_step E _ _ c k p1 w0 (apart_sym _ _ Hapart)
                (removal_frame_sym _ _ _ Hf) H2 H1) as (x & w' & ? & ? & ? & ?).
    exists x, w'. split; [done|]. split; [by apply removal_frame_sym|done].
  - intros p1 p2 w0 s H. exact H.
  - split; [|split].
    + split; [done|]. split; [done|].
      split; intros Hnone; by apply wf_missing_nothing_below.
    + simpl. split; [done|]. by intros [].
    + simpl. split; [done|]. by intros [].
  - rewrite Hrun1. simpl in Hgone_c, Hgone_d.
    destruct Hframe1 as (Hpc1 & Hpd1 & Hnc1 & Hnd1).
    destruct (all2_invariant E
                (fun p1 p2 w => creation_frame (currentDir app) (diffDir app) (files w)
                                /\ creation_state (currentDir app) p1 (files w)
                                /\ creation_state (diffDir app) p2 (files w)))
      with (sched := schedule w1) (p1 := call (FsMakeDirectory (currentDir app)))
           (p2 := call (FsMakeDirectory (diffDir app))) (w := w1)
      as ([] & [] & w2 & Hrun2 & Hframe2 & Hdir_c & Hdir_d).
    + intros e p2 w0 (_ & H & _). exact H.
    + intros p1 e w0 (_ & _ & H). exact H.
    + intros c k p2 w0 (Hf & H1 & H2).
      destruct (creation_step E _ _ c k p2 w0 Hapart Hf H1 H2) as (x & w' & ? & ? & ? & ?).
      by exists x, w'.
    + intros p1 c k w0 (Hf & H1 & H2).
      destruct (creation_step E _ _ c k p1 w0 (apart_sym _ _ Hapart)
                  (creation_frame_sym _ _ _ Hf) H2 H1) as (x & w' & ? & ? & ? & ?).
      exists x, w'. split; [done|]. split; [by apply creation_frame_sym|done].
    + intros p1 p2 w0 s H. exact H.
    + split; [|split].
      * split; [done|]. split; [done|]. split; auto.
      * simpl. split; [done|]. split; [done|]. by intros [].
      * simpl. split; [done|]. split; [done|]. by intros [].
    + match goal with
      | |- context [all2 E ?s ?p ?q ?w0] =>
          change (all2 E s p q w0) with (@all2 E unit unit s p q w0)
      end.
      rewrite Hrun2. exists w2. simpl in Hdir_c, Hdir_d.
      destruct Hframe2 as (_ & _ & Hnc2 & Hnd2).
      split; [done|]. by split.
Qed.

Lemma recreate_workspace_calls (E : Env) (app : App) (w : World) :
  exists calls,
    trace (_recreateTmpDirs E app w).2 = trace w ++ calls
    /\ Forall (workspace_call app) calls.
Proof.
  unfold _recreateTmpDirs, q_all2.
  assert (Hrm : forall p, p = currentDir app \/ p = diffDir app ->
                          calls_in (workspace_call app) (removeTreeIfExists p)).
  { intros p Hp. eapply calls_in_impl; [|by apply removeTreeIfExists_calls]. by left. }
  assert (Hmk : forall p, p = currentDir app \/ p = diffDir app ->
                          calls_in (workspace_call app) (call (FsMakeDirectory p))).
  { intros p Hp. eapply calls_in_impl; [|by apply makeDirectory_calls]. by right. }
  destruct (all2_trace_calls E (workspace_call app) (schedule w)
              (removeTreeIfExists (currentDir app)) (removeTreeIfExists (diffDir app)) w)
    as (calls1 & Ht1 & Hall1); [apply Hrm; auto..|].
  destruct (all2 E (schedule w) (removeTreeIfExists (currentDir app))
              (removeTreeIfExists (diffDir app)) w) as [[e|x] w1]; simpl in Ht1.
  - by exists calls1.
  - destruct (all2_trace_calls E (workspace_call app) (schedule w1)
                (call (FsMakeDirectory (currentDir app)))
                (call (FsMakeDirectory (diffDir app))) w1)
      as (calls2 & Ht2 & Hall2); [apply Hmk; auto..|].
    match goal with
    | |- context [all2 E ?s ?p ?q ?w0] =>
        change (all2 E s p q w0) with (@all2 E unit unit s p q w0)
    end.
    exists (calls1 ++ calls2).
    destruct (all2 E (schedule w1) _ _ w1) as [[e|y] w2]; simpl in Ht2; simpl;
      rewrite Ht2, Ht1, <- app_assoc; split; try done; by apply Forall_app.
Qed.

(** X4: with the two directories apart, their parents in a well-formed
    tree and gemini able to read the tests, [initialize] resolves under every
    schedule: both directories are empty, the suites are stored with their
    browser lists filtered by the option (untouched without it), and gemini
    is asked for the tests only after all calls on the directories. *)
Theorem initialize_ready (E : Env) (app : App) (w : World) (suites : list Suite) :
  fs_wf (files w) ->
  apart (currentDir app) (diffDir app) ->
  parent_ok (files w) (currentDir app) = true ->
  parent_ok (files w) (diffDir app) = true ->
  gemini_readTests E (testFiles (_options app)) (grep (_options app)) = inr suites ->
  exists app' w' calls,
    initialize E app w = (inr app', w')
    /\ is_empty_dir (files w') (currentDir app)
    /\ is_empty_dir (files w') (diffDir app)
    /\ _collection app'
       = Some (match browser (_options app) with
               | None => suites
               | Some cli =>
                   map (fun s => set_browsers (filterBrowsers (browsers s) cli) s) suites
               end)
    /\ currentDir app' = currentDir app
    /\ diffDir app' = diffDir app
    /\ _failedTests app' = _failedTests app
    /\ trace w' = trace w ++ calls
                  ++ [GeminiReadTests (testFiles (_options app)) (grep (_options app))]
    /\ Forall (workspace_call app) calls.
Proof.
  intros Hwf Hapart Hpc Hpd Hread.
  destruct (recreate_succeeds E app w Hwf Hapart Hpc Hpd) as (w1 & Hrun & Hec & Hed).
  destruct (recreate_workspace_calls E app w) as (calls & Ht & Hcalls).
  rewrite Hrun in Ht. simpl in Ht.
  unfold initialize. rewrite Hrun. unfold _readTests.
  rewrite run_then, run_call. simpl. rewrite Hread. simpl.
  eexists _, _, calls. split; [reflexivity|]. simpl.
  repeat split; try done; try apply Hec; try apply Hed.
  by rewrite Ht, <- app_assoc.
Qed.

Lemma initialize_ready_witness :
  exists app' w' calls,
    initialize fixtureEnv fixture_app (fixture_world [true; false; false]) = (inr app', w')
    /\ is_empty_dir (files w') (currentDir fixture_app)
    /\ is_empty_dir (files w') (diffDir fixture_app)
    /\ _collection app' = Some fixture_suites
    /\ currentDir app' = currentDir fixture_app
    /\ diffDir app' = diffDir fixture_app
    /\ _failedTests app' = _failedTests fixture_app
    /\ trace w' = trace (fixture_world [true; false; false]) ++ calls
                  ++ [GeminiReadTests (testFiles (_options fixture_app))
                        (grep (_options fixture_app))]
    /\ Forall (workspace_call fixture_app) calls.
Proof.
  apply (initialize_ready fixtureEnv fixture_app (fixture_world [true; false; false])
           fixture_suites).
  - apply (bool_decide_unpack _). vm_compute. exact I.
  - apply (bool_decide_unpack _). vm_compute. exact I.
  - vm_compute. reflexivity.
  - vm_compute. reflexivity.
  - reflexivity.
Defined.

(** X5: when [_recreateTmpDirs] rejects, [initialize] rejects with the
    same error in the same world, and gemini is never asked to read the
    tests: the only calls made are those on the two directories. *)
Theorem initialize_stops_at_workspace_failure
    (E : Env) (app : App) (w : World) (e : Error) :
  (_recreateTmpDirs E app w).1 = inl e ->
  initialize E app w = (inl e, (_recreateTmpDirs E app w).2)
  /\ exists calls,
       trace (initialize E app w).2 = trace w ++ calls
       /\ Forall (workspace_call app) calls
       /\ (forall fl pattern, GeminiReadTests fl pattern ∉ calls).
Proof.
  intros Hfail. unfold initialize.
  destruct (recreate_workspace_calls E app w) as (calls & Ht & Hcalls).
  destruct (_recreateTmpDirs E app w) as [[e'|[]] w1]; simpl in *; [|discriminate].
  injection Hfail as ->. split; [done|].
  exists calls. split; [done|]. split; [done|].
  intros fl pattern Hin. rewrite Forall_forall in Hcalls.
  by destruct (Hcalls _ Hin) as [[]|[]].
Qed.

Lemma initialize_stops_at_workspace_failure_witness :
  initialize fixtureEnv fixture_app_nowhere (fixture_world [])
  = (inl (FsError (u16 "ENOENT") (u16 "/nowhere/curr")),
     (_recreateTmpDirs fixtureEnv fixture_app_nowhere (fixture_world [])).2)
  /\ exists calls,
       trace (initialize fixtureEnv fixture_app_nowhere (fixture_world [])).2
       = trace (fixture_world []) ++ calls
       /\ Forall (workspace_call fixture_app_nowhere) calls
       /\ (forall fl pattern, GeminiReadTests fl pattern ∉ calls).
Proof.
  apply (initialize_stops_at_workspace_failure fixtureEnv fixture_app_nowhere
           (fixture_world []) (FsError (u16 "ENOENT") (u16 "/nowhere/curr"))).
  vm_compute. reflexivity.
Defined.

(** ** The constructor *)



(** ** Browser filtering *)

Lemma baseIntersection_sublist (a b r : list jsstring) :
  exists l, baseIntersection a b r = r ++ l /\ l `sublist_of` a.
Proof.
  revert r. induction a as [|v a IH]; intros r; simpl.
  - exists []. by rewrite app_nil_r.
  - destruct (negb (includes r v) && includes b v).
    + destruct (IH (r ++ [v])) as (l & Hl & Hsub). exists (v :: l).
      rewrite Hl, <- app_assoc. split; [done|]. by apply sublist_skip.
    + destruct (IH r) as (l & Hl & Hsub). exists l. split; [done|].
      by apply sublist_cons.
Qed.

Lemma baseIntersection_fixed (l b r : list jsstring) :
  NoDup (r ++ l) -> Forall (fun x => x ∈ b) l -> baseIntersection l b r = r ++ l.
Proof.
  revert r. induction l as [|v l IH]; intros r Hnd Hall; simpl.
  - by rewrite app_nil_r.
  - apply Forall_cons in Hall as [Hv Hall].
    assert (includes r v = false) as Hr.
    { unfold includes. apply bool_decide_eq_false. intros Hin.
      apply NoDup_app in Hnd as (_ & Hdis & _). apply (Hdis v Hin). by left. }
    assert (includes b v = true) as Hb by (by apply includes_elem).
    rewrite Hr, Hb. simpl. rewrite IH; [by rewrite <- app_assoc| |done].
    by rewrite <- app_assoc.
Qed.

Lemma baseIntersection_members (a b b' r : list jsstring) :
  (forall x, x ∈ b <-> x ∈ b') -> baseIntersection a b r = baseIntersection a b' r.
Proof.
  intros Hb. revert r. induction a as [|v a IH]; intros r; simpl; [done|].
  assert (includes b v = includes b' v) as ->.
  { unfold includes. apply bool_decide_ext. apply Hb. }
  by rewrite !IH.
Qed.

Lemma filterBrowsers_sublist (a b : list jsstring) : filterBrowsers a b `sublist_of` a.
Proof.
  unfold filterBrowsers, lodash_intersection.
  by destruct (baseIntersection_sublist a b []) as (l & -> & Hsub).
Qed.

Lemma filterBrowsers_nil (a : list jsstring) : filterBrowsers a [] = [].
Proof.
  unfold filterBrowsers, lodash_intersection.
  destruct (baseIntersection a [] []) as [|x l] eqn:Hb; [done|].
  assert (x ∈ baseIntersection a [] []) as Hx by (rewrite Hb; by left).
  apply baseIntersection_elem in Hx.
  destruct Hx as [Hx|[_ Hx]]; by apply elem_of_nil in Hx.
Qed.

(** X7: [filterBrowsers] keeps the order of the configured list (its
    result is a sub-list of it); only membership in the list of the
    invocation matters, not its order or repetitions; filtering twice is
    filtering once; a configured list without repetitions that the
    invocation covers is returned as it is; an empty list of the invocation
    gives the empty list. *)
Theorem filterBrowsers_order (B_config B_cli : list jsstring) :
  filterBrowsers B_config B_cli `sublist_of` B_config
  /\ (forall B_cli', (forall x, x ∈ B_cli <-> x ∈ B_cli') ->
                     filterBrowsers B_config B_cli' = filterBrowsers B_config B_cli)
  /\ filterBrowsers (filterBrowsers B_config B_cli) B_cli = filterBrowsers B_config B_cli
  /\ (NoDup B_config -> Forall (fun x => x ∈ B_cli) B_config ->
      filterBrowsers B_config B_cli = B_config)
  /\ filterBrowsers B_config [] = [].
Proof.
  split; [apply filterBrowsers_sublist|].
  split; [|split; [|split; [|apply filterBrowsers_nil]]];
    unfold filterBrowsers, lodash_intersection.
  - intros B_cli' Hm. symmetry. by apply baseIntersection_members.
  - apply (baseIntersection_fixed _ B_cli []).
    + simpl. apply baseIntersection_NoDup, NoDup_nil_2.
    + apply Forall_forall. intros x Hx. apply baseIntersection_elem in Hx.
      destruct Hx as [Hx|[_ Hx]]; [by apply elem_of_nil in Hx|done].
  - intros Hnd Hall. by apply (baseIntersection_fixed _ B_cli []).
Qed.

Lemma filterBrowsers_order_witness :
  filterBrowsers [u16 "chrome"; u16 "firefox"] [u16 "firefox"; u16 "chrome"; u16 "firefox"]
  = [u16 "chrome"; u16 "firefox"].
Proof.
  destruct (filterBrowsers_order [u16 "chrome"; u16 "firefox"]
              [u16 "firefox"; u16 "chrome"; u16 "firefox"]) as (_ & _ & _ & Hfix & _).
  apply Hfix.
  - apply (bool_decide_unpack _). vm_compute. exact I.
  - apply (bool_decide_unpack _). vm_compute. exact I.
Defined.

(** X8: [_readTests] asks gemini once and touches nothing else. When
    gemini rejects, the rejection is passed on. Otherwise the suites are
    stored in the order read, with their names, each with a browser list that
    is a sub-list of the one it had; with a browser option that is an empty
    list every suite is left without browsers. The directories, the index and
    the reference directories of the application stay as they were. *)
Theorem readTests_keeps_suites (E : Env) (app : App) (w : World) :
  match gemini_readTests E (testFiles (_options app)) (grep (_options app)) with
  | inl e =>
      run E (_readTests E app) w
      = (inl e, record_call (GeminiReadTests (testFiles (_options app))
                                             (grep (_options app))) w)
  | inr suites =>
      exists app' suites',
        run E (_readTests E app) w
        = (inr app', record_call (GeminiReadTests (testFiles (_options app))
                                                  (grep (_options app))) w)
        /\ _collection app' = Some suites'
        /\ map suite_name suites' = map suite_name suites
        /\ Forall2 (fun s s' => browsers s' `sublist_of` browsers s) suites suites'
        /\ (browser (_options app) = Some [] ->
            Forall (fun s' => browsers s' = []) suites')
        /\ currentDir app' = currentDir app
        /\ diffDir app' = diffDir app
        /\ _failedTests app' = _failedTests app
        /\ referenceDirs app' = referenceDirs app
  end.
Proof.
  unfold _readTests. rewrite run_then, run_call. simpl.
  destruct (gemini_readTests E (testFiles (_options app)) (grep (_options app)))
    as [e|suites]; [done|]. simpl.
  eexists _, _. split; [reflexivity|]. simpl. split; [reflexivity|].
  destruct (browser (_options app)) as [cli|].
  - split; [|split; [|split]]; try done.
    + rewrite map_map. by apply map_ext.
    + apply Forall2_fmap_r. apply Forall2_same_length_lookup_2; [done|].
      intros i s s' Hs Hs'. assert (s' = s) as -> by congruence. simpl.
      apply filterBrowsers_sublist.
    + intros [= ->]. apply Forall_map. apply Forall_true. intros s. simpl.
      apply filterBrowsers_nil.
  - split; [|split; [|split]]; try done.
    apply Forall2_same_length_lookup_2; [done|].
    intros i s s' Hs Hs'. by assert (s' = s) as -> by congruence.
Qed.

(** ** Accepting a failed test *)



Lemma updateReferenceImage_calls (E : Env) (app : App) (testData test : Test) :
  Index_find (_failedTests app) testData = Some test ->
  calls_in (accept_call E test) (updateReferenceImage E app testData).
Proof.
  intros Hfind. unfold updateReferenceImage. rewrite Hfind.
  apply calls_in_then; [by apply calls_in_call|]. intros _.
  apply calls_in_then.
  { unfold _deleteRefImg. apply calls_in_then; [by apply calls_in_call|].
    intros []; [by apply calls_in_call|done]. }
  intros _. apply calls_in_then; [by apply calls_in_call|]. intros _.
  apply calls_in_then.
  { unfold _calcCompression. apply calls_in_then; [by apply calls_in_call|]. done. }
  intros rate. apply calls_in_then.
  { apply calls_in_call. by exists rate. }
  intros _. unfold refPathToURL. destruct (referenceDirs app !! browserId test); [|done].
  apply calls_in_then; [apply calls_in_lift|]. intros URL.
  unfold _appendTimestampToURL. apply calls_in_then; [by apply calls_in_call|]. done.
Qed.

(** X10: whatever happens to it, [updateReferenceImage] for a recorded test
    only ever makes the tree of the reference's directory, asks about and
    removes the reference file, runs optipng with ['-out', reference,
    current], compares these two files, logs the update of that reference and
    reads the clock. It removes no tree, makes no single directory, asks
    gemini nothing, and prints no warning. *)
Theorem updateReferenceImage_confined
    (E : Env) (app : App) (testData test : Test) (w : World) :
  Index_find (_failedTests app) testData = Some test ->
  exists calls,
    trace (run E (updateReferenceImage E app testData) w).2 = trace w ++ calls
    /\ Forall (accept_call E test) calls
    /\ stderr (run E (updateReferenceImage E app testData) w).2 = stderr w.
Proof.
  intros Hfind. pose proof (updateReferenceImage_calls E app testData test Hfind) as Hc.
  destruct (run_trace_calls E (accept_call E test) _ w Hc) as (calls & Ht & Hall).
  exists calls. split; [done|]. split; [done|].
  apply (run_keeps E (accept_call E test) (fun w' => stderr w' = stderr w) _); [|done|done].
  intros c w0 Hcall H0. rewrite <- H0.
  destruct c; simpl in Hcall |- *; try contradiction; try reflexivity;
    repeat match goal with
           | |- context [fs_result ?r _] => destruct r; simpl
           | |- context [match ?r with inl _ => _ | inr _ => _ end] => destruct r; simpl
           end; reflexivity.
Qed.

Lemma updateReferenceImage_confined_witness :
  exists calls,
    trace fixture_accept.2 = trace (fixture_world []) ++ calls
    /\ Forall (accept_call fixtureEnv (fixture_test 1)) calls
    /\ stderr fixture_accept.2 = stderr (fixture_world []).
Proof.
  apply (updateReferenceImage_confined fixtureEnv fixture_app_failed (fixture_test 2)
           (fixture_test 1) (fixture_world [])).
  reflexivity.
Defined.

Lemma accept_prefix_run (E : Env) (ref : jsstring) (w : World) (size : Z) :
  fs_wf (files w) ->
  files w !! ref = Some (File size) ->
  run E (call (FsMakeTree (path_dirname ref)) ;;; _deleteRefImg ref) w
  = (inr tt,
     set_files (delete ref (files w))
       (record_call (FsRemove ref)
          (record_call (FsIsFile ref)
             (record_call (FsMakeTree (path_dirname ref)) w)))).
Proof.
  intros Hwf Hfile. rewrite run_then, run_call. simpl.
  rewrite fs_makeTree_above by (done || by eexists). simpl.
  unfold fs_isFile. rewrite Hfile. simpl.
  unfold fs_remove. rewrite Hfile. simpl.
  destruct w; reflexivity.
Qed.

(** X11: there is no rollback. When the reference is a file of a
    well-formed tree and optipng then fails, [updateReferenceImage] rejects
    with optipng's error after [makeTree], [isFile], [remove] and [execFile]:
    the old reference is already deleted and stays deleted, the sizes are
    never compared and nothing is logged. *)
Theorem updateReferenceImage_optipng_failure
    (E : Env) (app : App) (testData test : Test) (w : World) (size : Z) (err : Error) :
  Index_find (_failedTests app) testData = Some test ->
  fs_wf (files w) ->
  files w !! referencePath test = Some (File size) ->
  execFile_run E (optipng E) [u16 "-out"; referencePath test; currentPath test]
               (delete (referencePath test) (files w)) = inl err ->
  exists w',
    run E (updateReferenceImage E app testData) w = (inl err, w')
    /\ files w' = delete (referencePath test) (files w)
    /\ files w' !! referencePath test = None
    /\ stdout w' = stdout w
    /\ trace w' = trace w
                  ++ [FsMakeTree (path_dirname (referencePath test));
                      FsIsFile (referencePath test);
                      FsRemove (referencePath test);
                      ExecFile (optipng E)
                        [u16 "-out"; referencePath test; currentPath test]].
Proof.
  intros Hfind Hwf Hfile Hexec.
  unfold updateReferenceImage. rewrite Hfind.
  rewrite run_then_assoc, (accept_prefix_run E _ w size Hwf Hfile). cbv beta iota.
  rewrite run_then. unfold _compressAndCopyRefImg, call at 1. cbn [run].
  simpl. rewrite Hexec. simpl.
  eexists. split; [reflexivity|]. simpl.
  split; [done|]. split; [apply lookup_delete_eq|]. split; [done|].
  by rewrite <- !app_assoc.
Qed.

Lemma updateReferenceImage_optipng_failure_witness :
  exists w',
    run fixtureEnv
        (updateReferenceImage fixtureEnv (addFailedTest fixture_app fixture_test_lost)
           fixture_test_lost)
        (fixture_world [])
    = (inl (ExecError (u16 "Command failed")), w')
    /\ files w' = delete (referencePath fixture_test_lost) (files (fixture_world []))
    /\ files w' !! referencePath fixture_test_lost = None
    /\ stdout w' = stdout (fixture_world [])
    /\ trace w' = trace (fixture_world [])
                  ++ [FsMakeTree (path_dirname (referencePath fixture_test_lost));
                      FsIsFile (referencePath fixture_test_lost);
                      FsRemove (referencePath fixture_test_lost);
                      ExecFile (optipng fixtureEnv)
                        [u16 "-out"; referencePath fixture_test_lost;
                         currentPath fixture_test_lost]].
Proof.
  apply (updateReferenceImage_optipng_failure fixtureEnv
           (addFailedTest fixture_app fixture_test_lost) fixture_test_lost
           fixture_test_lost (fixture_world []) 20000).
  - reflexivity.
  - apply (bool_decide_unpack _). vm_compute. exact I.
  - vm_compute. reflexivity.
  - vm_compute. reflexivity.
Defined.

Lemma fs_makeParts_grows (parts : list jsstring) (fs fs' : gmap jsstring Node) :
  fs_makeParts fs parts = inr fs' -> fs ⊆ fs'.
Proof.
  revert fs. induction parts as [|a parts IH]; intros fs; simpl.
  - by intros [= ->].
  - destruct (fs !! a) eqn:Ha; [apply IH|].
    unfold fs_makeDirectory. rewrite Ha.
    destruct (parent_ok fs a); [|discriminate].
    intros H. apply IH in H. etransitivity; [|exact H]. by apply insert_subseteq.
Qed.

(** X12: when the tree of the reference's directory can be made and the
    reference is then not a file (a test that has no reference yet), nothing
    is removed: optipng starts right after [makeTree] and [isFile], on the
    tree [makeTree] left, which still holds every entry there was before. *)
Theorem updateReferenceImage_no_reference
    (E : Env) (app : App) (testData test : Test) (w : World)
    (fs1 : gmap jsstring Node) :
  Index_find (_failedTests app) testData = Some test ->
  fs_makeTree (files w) (path_dirname (referencePath test)) = inr fs1 ->
  fs_isFile fs1 (referencePath test) = false ->
  exists w1 later,
    trace (run E (updateReferenceImage E app testData) w).2
    = trace w
      ++ [FsMakeTree (path_dirname (referencePath test));
          FsIsFile (referencePath test);
          ExecFile (optipng E) [u16 "-out"; referencePath test; currentPath test]]
      ++ later
    /\ run E (call (FsMakeTree (path_dirname (referencePath test))) ;;;
              _deleteRefImg (referencePath test)) w = (inr tt, w1)
    /\ files w1 = fs1
    /\ files w ⊆ fs1.
Proof.
  intros Hfind Hmk Hnf.
  assert (Hprefix :
            run E (call (FsMakeTree (path_dirname (referencePath test))) ;;;
                   _deleteRefImg (referencePath test)) w
            = (inr tt,
               record_call (FsIsFile (referencePath test))
                 (set_files fs1
                    (record_call (FsMakeTree (path_dirname (referencePath test))) w)))).
  { rewrite run_then, run_call. simpl. rewrite Hmk. simpl. by rewrite Hnf. }
  unfold updateReferenceImage. rewrite Hfind.
  rewrite run_then_assoc, Hprefix. cbv beta iota.
  rewrite run_then. unfold _compressAndCopyRefImg, call at 1. cbn [run].
  set (w1 := record_call _ _).
  pose proof (handle_trace E
                (ExecFile (optipng E) [u16 "-out"; referencePath test; currentPath test])
                w1) as Ht.
  assert (Hgrow : files w ⊆ fs1) by (by apply fs_makeParts_grows in Hmk).
  destruct (handle E _ w1) as [[e|[]] w2] eqn:Hh; simpl in Ht.
  - exists w1, []. simpl. rewrite Ht.
    repeat split; try done; by rewrite <- !app_assoc.
  - match goal with
    | |- context [run E ?p w2] => destruct (run_trace_extends E p w2) as [calls Hc]
    end.
    exists w1, calls. rewrite Hc, Ht.
    repeat split; try done; by rewrite <- !app_assoc.
Qed.

Lemma updateReferenceImage_no_reference_witness :
  exists w1 later,
    trace (run fixtureEnv
               (updateReferenceImage fixtureEnv (addFailedTest fixture_app fixture_test_new)
                  fixture_test_new)
               (fixture_world [])).2
    = trace (fixture_world [])
      ++ [FsMakeTree (path_dirname (referencePath fixture_test_new));
          FsIsFile (referencePath fixture_test_new);
          ExecFile (optipng fixtureEnv)
            [u16 "-out"; referencePath fixture_test_new; currentPath fixture_test_new]]
      ++ later
    /\ run fixtureEnv
           (call (FsMakeTree (path_dirname (referencePath fixture_test_new))) ;;;
            _deleteRefImg (referencePath fixture_test_new)) (fixture_world [])
       = (inr tt, w1)
    /\ files w1 = <[u16 "/shots/firefox/header" := Dir]>
                    (<[u16 "/shots/firefox" := Dir]> fixture_files)
    /\ files (fixture_world []) ⊆ <[u16 "/shots/firefox/header" := Dir]>
                                    (<[u16 "/shots/firefox" := Dir]> fixture_files).
Proof.
  apply (updateReferenceImage_no_reference fixtureEnv
           (addFailedTest fixture_app fixture_test_new) fixture_test_new fixture_test_new
           (fixture_world [])).
  - reflexivity.
  - vm_compute. reflexivity.
  - vm_compute. reflexivity.
Defined.







(** ** URLs *)

(** X14: the mapping never sends two different relative paths to one URL
    under the same prefix. *)
Theorem pathToURL_injective
    (E : Env) (rootDir1 fullPath1 rootDir2 fullPath2 prefix url : jsstring) :
  Forall is_code_unit (path_relative E rootDir1 fullPath1) ->
  Forall is_code_unit (path_relative E rootDir2 fullPath2) ->
  _pathToURL E rootDir1 fullPath1 prefix = inr url ->
  _pathToURL E rootDir2 fullPath2 prefix = inr url ->
  path_relative E rootDir1 fullPath1 = path_relative E rootDir2 fullPath2.
Proof.
  intros Hc1 Hc2 H1 H2.
  apply pathToURL_inv in H1 as (e1 & He1 & _ & Hd1).
  apply pathToURL_inv in H2 as (e2 & He2 & _ & Hd2).
  assert (e1 = e2) as <- by congruence.
  pose proof (decodeURIComponent_encodeURI _ _ Hc1 He1) as D1.
  pose proof (decodeURIComponent_encodeURI _ _ Hc2 He2) as D2.
  congruence.
Qed.

Lemma pathToURL_injective_witness :
  path_relative fixtureEnv (u16 "/tmp/diff") odd_diff_path
  = path_relative fixtureEnv (u16 "/tmp") (u16 "/tmp/a b?c.png").
Proof.
  apply (pathToURL_injective fixtureEnv (u16 "/tmp/diff") odd_diff_path
           (u16 "/tmp") (u16 "/tmp/a b?c.png") diffPrefix (u16 "/diff/a%20b?c.png")).
  - evaluate_path. repeat (constructor; [unfold is_code_unit; lia|]). constructor.
  - evaluate_path. repeat (constructor; [unfold is_code_unit; lia|]). constructor.
  - vm_compute. reflexivity.
  - vm_compute. reflexivity.
Defined.

Lemma hex_digit_safe (d : Z) : 0 <= d < 16 -> url_safe (hex_digit d).
Proof.
  intros Hd.
  assert (d = 0 \/ d = 1 \/ d = 2 \/ d = 3 \/ d = 4 \/ d = 5 \/ d = 6 \/ d = 7 \/
          d = 8 \/ d = 9 \/ d = 10 \/ d = 11 \/ d = 12 \/ d = 13 \/ d = 14 \/ d = 15)
    as Hcases by lia.
  repeat destruct Hcases as [->|Hcases]; try (by left). subst d. by left.
Qed.

Lemma pct_safe (b : Z) : 0 <= b < 256 -> Forall url_safe (pct b).
Proof.
  intros Hb. unfold pct.
  constructor; [by right|].
  constructor; [apply hex_digit_safe; Z.div_mod_to_equations; lia|].
  constructor; [apply hex_digit_safe; Z.div_mod_to_equations; lia|].
  constructor.
Qed.

Lemma pct_utf8_safe (cp : Z) : is_scalar cp -> Forall url_safe (pct_utf8 cp).
Proof.
  intros Hs. unfold pct_utf8. apply Forall_concat, Forall_map.
  destruct (Z.ltb_spec cp 0x80) as [Hlt|Hge].
  - unfold utf8. destruct (Z.ltb_spec cp 0x80); [|lia].
    constructor; [|constructor]. apply pct_safe. destruct Hs. lia.
  - destruct (utf8_multi_octet cp Hs Hge) as (b0 & bs & -> & Hb0 & _ & Hbs & _).
    constructor; [apply pct_safe; lia|].
    eapply Forall_impl; [exact Hbs|]. intros b Hb. apply pct_safe.
    unfold is_octet_continuation in Hb. lia.
Qed.

Lemma encodeURI_safe (n : nat) (s out : jsstring) :
  (length s <= n)%nat ->
  Forall is_code_unit s ->
  encodeURI s = inr out -> Forall url_safe out.
Proof.
  unfold encodeURI.
  revert s out. induction n as [|n IH]; intros s out Hlen Hcu Henc.
  { destruct s; [|simpl in Hlen; lia]. simpl in Henc. injection Henc as <-. constructor. }
  destruct s as [|c rest]; simpl in Henc.
  { injection Henc as <-. constructor. }
  simpl in Hlen. apply Forall_cons in Hcu as [Hc Hrest].
  destruct (encodeURI_unescaped c) eqn:Hu.
  { destruct (Encode encodeURI_unescaped rest) as [e|o] eqn:Hr; simpl in Henc;
      [discriminate|]. injection Henc as <-.
    constructor; [by left|]. apply (IH rest); [lia|done|done]. }
  destruct (is_low_surrogate c) eqn:Hlow; [discriminate|].
  destruct (is_high_surrogate c) eqn:Hhigh.
  - destruct rest as [|c2 rest']; [discriminate|].
    destruct (is_low_surrogate c2) eqn:Hlow2; [|discriminate].
    destruct (Encode encodeURI_unescaped rest') as [e|o] eqn:Hr; simpl in Henc;
      [discriminate|]. injection Henc as <-.
    apply Forall_cons in Hrest as [_ Hrest'].
    apply Forall_app. split.
    + apply pct_utf8_safe. by apply surrogate_pair_scalar.
    + apply (IH rest'); [simpl in Hlen; lia|done|done].
  - destruct (Encode encodeURI_unescaped rest) as [e|o] eqn:Hr; simpl in Henc;
      [discriminate|]. injection Henc as <-.
    apply Forall_app. split.
    + apply pct_utf8_safe. unfold is_code_unit in Hc. unfold is_scalar.
      unfold is_low_surrogate in Hlow. unfold is_high_surrogate in Hhigh.
      rewrite andb_false_iff, !Z.leb_gt in Hlow, Hhigh. lia.
    + apply (IH rest); [lia|done|done].
Qed.

Lemma unescaped_printable (c : Z) : encodeURI_unescaped c = true -> 33 <= c <= 126.
Proof.
  assert (Hm : Forall (fun x => 33 <= x <= 126) (uriMark ++ uriReserved)).
  { let l := eval vm_compute in (uriMark ++ uriReserved) in
    change (uriMark ++ uriReserved) with l.
    repeat (constructor; [lia|]). constructor. }
  rewrite Forall_forall in Hm.
  unfold encodeURI_unescaped, is_alpha, is_digit, HASH.
  rewrite !orb_true_iff, !andb_true_iff, !Z.leb_le, Z.eqb_eq.
  intros [[[[[H|H]|H]|H]|H]|H]; try lia.
  - apply mem_units_elem in H. apply Hm. apply elem_of_app. by left.
  - apply mem_units_elem in H. apply Hm. apply elem_of_app. by right.
Qed.

(** X15: whatever characters the relative path has, the part of the URL
    after the prefix is written only with the characters [encodeURI] leaves
    unescaped and the percent sign: printable ASCII, with no space in it. *)
Theorem pathToURL_ascii (E : Env) (rootDir fullPath prefix url : jsstring) :
  Forall is_code_unit (path_relative E rootDir fullPath) ->
  _pathToURL E rootDir fullPath prefix = inr url ->
  Forall url_safe (drop (length (prefix ++ u16 "/")) url)
  /\ Forall (fun c => 33 <= c <= 126) (drop (length (prefix ++ u16 "/")) url).
Proof.
  intros Hcu Hurl. apply pathToURL_inv in Hurl as (encoded & Henc & _ & ->).
  pose proof (encodeURI_safe _ _ _ (Nat.le_refl _) Hcu Henc) as Hsafe.
  split; [done|]. eapply Forall_impl; [exact Hsafe|].
  intros c [Hc| ->]; [by apply unescaped_printable|]. unfold PERCENT. lia.
Qed.

Lemma pathToURL_ascii_witness :
  Forall url_safe
    (drop (length (diffPrefix ++ u16 "/")) (u16 "/diff/a%20%E2%82%AC%F0%9F%98%80"))
  /\ Forall (fun c => 33 <= c <= 126)
       (drop (length (diffPrefix ++ u16 "/")) (u16 "/diff/a%20%E2%82%AC%F0%9F%98%80")).
Proof.
  apply (pathToURL_ascii fixtureEnv (u16 "/tmp/diff")
           ((u16 "/tmp/diff/a ") ++ [0x20AC; 0xD83D; 0xDE00]) diffPrefix).
  - evaluate_path. repeat (constructor; [unfold is_code_unit; lia|]). constructor.
  - vm_compute. reflexivity.
Defined.

Lemma Encode_unescaped_copy (s : jsstring) :
  Forall (fun c => encodeURI_unescaped c = true) s -> encodeURI s = inr s.
Proof.
  unfold encodeURI. induction 1 as [|c s Hc _ IH]; [done|].
  simpl. by rewrite Hc, IH.
Qed.

(** X16: a relative path written only with characters [encodeURI] leaves
    unescaped (letters, digits, [/], [.], [-], [_] and the like) appears in
    the URL exactly as it is, after the prefix and a [/]. *)
Theorem pathToURL_plain (E : Env) (rootDir fullPath prefix : jsstring) :
  Forall (fun c => encodeURI_unescaped c = true) (path_relative E rootDir fullPath) ->
  _pathToURL E rootDir fullPath prefix
  = inr (prefix ++ u16 "/" ++ path_relative E rootDir fullPath).
Proof.
  intros Hplain. unfold _pathToURL. rewrite (Encode_unescaped_copy _ Hplain).
  simpl. by rewrite <- app_assoc.
Qed.

Lemma pathToURL_plain_witness :
  _pathToURL fixtureEnv (u16 "/shots/chrome") (referencePath (fixture_test 1))
             (refPrefix ++ u16 "/chrome")
  = inr ((refPrefix ++ u16 "/chrome") ++ u16 "/"
         ++ path_relative fixtureEnv (u16 "/shots/chrome") (referencePath (fixture_test 1))).
Proof.
  apply (pathToURL_plain fixtureEnv (u16 "/shots/chrome") (referencePath (fixture_test 1))
           (refPrefix ++ u16 "/chrome")).
  evaluate_path. repeat (constructor; [reflexivity|]). constructor.
Defined.

Lemma encodeURI_ill_formed (n : nat) (s : jsstring) :
  (length s <= n)%nat -> well_formed s = false -> encodeURI s = inl malformed.
Proof.
  unfold encodeURI. revert s. induction n as [|n IH]; intros s Hlen Hwf.
  { destruct s; [discriminate|simpl in Hlen; lia]. }
  destruct s as [|c rest]; [discriminate|]. simpl in *.
  destruct (encodeURI_unescaped c) eqn:Hu.
  { destruct (unescaped_not_surrogate c Hu) as [Hl Hh]. rewrite Hl, Hh in Hwf.
    rewrite (IH rest); [done|lia|done]. }
  destruct (is_low_surrogate c); [done|].
  destruct (is_high_surrogate c).
  - destruct rest as [|c2 rest']; [done|].
    destruct (is_low_surrogate c2); [|done]. simpl in Hwf.
    rewrite (IH rest'); [done|simpl in Hlen; lia|done].
  - rewrite (IH rest); [done|lia|done].
Qed.

(** X17: [currentPathToURL] and [refPathToURL] resolve exactly when the
    relative path has no unpaired surrogate (and, for [refPathToURL], the
    browser id has a reference directory); they then read the clock once and
    do nothing else. Otherwise they reject, with a URIError for the
    surrogate and a TypeError for the browser id, without reading the clock:
    the world is left as it was. *)
Theorem stamped_URL_outcome (E : Env) (app : App) (fullPath id : jsstring) (w : World) :
  (well_formed (path_relative E (currentDir app) fullPath) = true ->
   exists encoded,
     encodeURI (path_relative E (currentDir app) fullPath) = inr encoded
     /\ run E (currentPathToURL E app fullPath) w
        = (inr (u16 "/curr/" ++ encoded ++ u16 "?t=" ++ Z_toString (clock w)),
           record_call DateNow w))
  /\ (well_formed (path_relative E (currentDir app) fullPath) = false ->
      run E (currentPathToURL E app fullPath) w = (inl malformed, w))
  /\ (referenceDirs app !! id = None ->
      exists message,
        run E (refPathToURL E app fullPath id) w = (inl (TypeError message), w))
  /\ (forall rootDir,
        referenceDirs app !! id = Some rootDir ->
        (well_formed (path_relative E rootDir fullPath) = true ->
         exists encoded,
           encodeURI (path_relative E rootDir fullPath) = inr encoded
           /\ run E (refPathToURL E app fullPath id) w
              = (inr (u16 "/ref/" ++ id ++ u16 "/" ++ encoded
                      ++ u16 "?t=" ++ Z_toString (clock w)),
                 record_call DateNow w))
        /\ (well_formed (path_relative E rootDir fullPath) = false ->
            run E (refPathToURL E app fullPath id) w = (inl malformed, w))).
Proof.
  split; [|split; [|split]].
  - intros Hwf. destruct (encodeURI_total _ _ (Nat.le_refl _) Hwf) as [encoded Henc].
    exists encoded. split; [done|].
    unfold currentPathToURL, _pathToURL. rewrite Henc. simpl. reflexivity.
  - intros Hwf. unfold currentPathToURL, _pathToURL.
    by rewrite (encodeURI_ill_formed _ _ (Nat.le_refl _) Hwf).
  - intros Hnone. unfold refPathToURL. rewrite Hnone. by eexists.
  - intros rootDir Hroot. unfold refPathToURL. rewrite Hroot. split.
    + intros Hwf. destruct (encodeURI_total _ _ (Nat.le_refl _) Hwf) as [encoded Henc].
      exists encoded. split; [done|].
      unfold _pathToURL. rewrite Henc. simpl.
      do 2 f_equal. unfold refPrefix. by rewrite <- !app_assoc.
    + intros Hwf. unfold _pathToURL.
      by rewrite (encodeURI_ill_formed _ _ (Nat.le_refl _) Hwf).
Qed.

Lemma stamped_URL_outcome_witness :
  run fixtureEnv (currentPathToURL fixtureEnv fixture_app (u16 "/tmp/curr/a" ++ [0xDC00]))
      (fixture_world [])
  = (inl malformed, fixture_world []).
Proof.
  destruct (stamped_URL_outcome fixtureEnv fixture_app (u16 "/tmp/curr/a" ++ [0xDC00])
              (u16 "chrome") (fixture_world [])) as (_ & Hbad & _).
  apply Hbad. vm_compute. reflexivity.
Defined.

(** ** The compression rate *)






(** ** Tests without a reference *)

(** X20: [addNoReferenceTest] records the test with its reference path
    replaced by the path gemini computes for its suite, state and browser.
    A later accept with a descriptor of the same three fields finds that
    record, and begins by making the directory tree of the computed path.
    Nothing else of the application changes. *)
Theorem addNoReferenceTest_then_accept
    (E : Env) (app : App) (test descriptor : Test) (w : World) :
  suite_path descriptor = suite_path test ->
  state_name descriptor = state_name test ->
  browserId descriptor = browserId test ->
  Index_find (_failedTests (addNoReferenceTest E app test)) descriptor
  = Some (set_referencePath
            (gemini_getScreenshotPath E (suite_path test) (state_name test)
               (browserId test)) test)
  /\ (exists later,
        trace (run E (updateReferenceImage E (addNoReferenceTest E app test) descriptor)
                 w).2
        = trace w
          ++ FsMakeTree (path_dirname
                           (gemini_getScreenshotPath E (suite_path test) (state_name test)
                              (browserId test)))
          :: later)
  /\ referenceDirs (addNoReferenceTest E app test) = referenceDirs app
  /\ currentDir (addNoReferenceTest E app test) = currentDir app
  /\ diffDir (addNoReferenceTest E app test) = diffDir app
  /\ _collection (addNoReferenceTest E app test) = _collection app.
Proof.
  intros Hs Hn Hb.
  assert (Hfind : Index_find (_failedTests (addNoReferenceTest E app test)) descriptor
                  = Some (set_referencePath
                            (gemini_getScreenshotPath E (suite_path test) (state_name test)
                               (browserId test)) test)).
  { unfold addNoReferenceTest, addFailedTest, Index_find, Index_add, Index_key,
      getScreenshotPath. simpl. rewrite Hs, Hn, Hb. apply lookup_insert_eq. }
  split; [exact Hfind|]. split; [|done].
  unfold updateReferenceImage. rewrite Hfind. simpl referencePath.
  rewrite run_then, run_call.
  pose proof (handle_trace E
                (FsMakeTree (path_dirname
                               (gemini_getScreenshotPath E (suite_path test)
                                  (state_name test) (browserId test)))) w) as Ht.
  destruct (handle E _ w) as [[e|[]] w1]; simpl in Ht.
  - exists []. simpl. done.
  - match goal with
    | |- context [run E ?p w1] => destruct (run_trace_extends E p w1) as [calls Hc]
    end.
    exists calls. rewrite Hc, Ht. by rewrite <- app_assoc.
Qed.

Lemma addNoReferenceTest_then_accept_witness :
  Index_find (_failedTests (addNoReferenceTest fixtureEnv fixture_app fixture_test_new))
             (fixture_test 2)
  = None
  /\ Index_find (_failedTests (addNoReferenceTest fixtureEnv fixture_app fixture_test_new))
                fixture_test_new
     = Some (set_referencePath (u16 "/shots/firefox/header/plain.png") fixture_test_new).
Proof.
  split; [reflexivity|].
  apply (addNoReferenceTest_then_accept fixtureEnv fixture_app fixture_test_new
           fixture_test_new (fixture_world [])); reflexivity.
Defined.
